(** * updateFields: a shallow embedding of src/src/updateFields.ts

    The function parses an iCalendar / vCard text with ical.js into a jCal
    tree, picks the component to update (the first VEVENT, VTODO or
    VJOURNAL of a VCALENDAR, or the root itself), upserts every entry of
    the field map on it with [updatePropertyWithValue], and serialises the
    whole tree again.

    Modelling choices:
    - JavaScript values are [jsval]; caller objects and the freshly parsed
      jCal tree live in a heap [gmap loc cell], so that aliasing between
      [component] and [actualComponent] and the (absence of) writes to the
      caller's wrapper object are explicit.
    - ical.js is a collaborator of the repository, not part of it. Its
      parser and serialiser and its design-set tables (default types of
      property names, value decorators) are the fields of an [Engine]
      record and stay abstract. The jCal tree operations the code calls
      ([getFirstSubcomponent], [getFirstProperty], [updatePropertyWithValue],
      [addPropertyWithValue], [Property.setValue], the [parent] setter) are
      written out as ical.js implements them on the jCal arrays, including
      the lookup of a falsy name and the value decorators that may throw.
    - A thrown [Error] is a value of [err]; the kind is the one the
      message announces ("Invalid input", "Failed to parse iCal data",
      "No VEVENT, ...") or, for an error of ical.js that updateFields does
      not catch, [EngineError]. As in JavaScript, a throw does not roll
      back the heap.
    - Strings are sequences of UTF-16 code units below 256. *)

From stdpp Require Import base gmap strings list fin_maps pretty.
From Stdlib Require Import Ascii.

Open Scope string_scope.
#[local] Set Warnings "-register-all".

(** ** JavaScript values and the jCal data model *)

Definition loc := positive.

Inductive jsval :=
| JUndef
| JNull
| JBool (b : bool)
| JNum (n : Z)
| JStr (s : string)
| JRef (l : loc).

(** JavaScript truthiness ([!x] is [negb (truthy x)]); numbers are
    modelled as integers, so NaN does not occur. *)
Definition truthy (v : jsval) : bool :=
  match v with
  | JUndef | JNull => false
  | JBool b => b
  | JNum n => negb (Z.eqb n 0)
  | JStr s => negb (String.eqb s "")
  | JRef _ => true
  end.

(** A jCal property [[name, params, type, value1, value2, ...]]. *)
Record prop := mkProp {
  prop_name : string;
  prop_params : list (string * jsval);
  prop_type : string;
  prop_values : list jsval
}.

(** A jCal component [[name, properties, subcomponents]]. *)
Inductive comp := mkComp {
  comp_name : string;
  comp_props : list prop;
  comp_subs : list comp
}.

(** ** [String.prototype.toLowerCase]

    On code units below 256 (Basic Latin and Latin-1 Supplement) it maps
    A-Z (65-90) and U+00C0-U+00DE except U+00D7 to the unit 32 higher;
    every other unit is lowercase already or has no case. *)

Definition lower_unit (a : ascii) : ascii :=
  let n := nat_of_ascii a in
  if (((65 <=? n) && (n <=? 90)) || ((192 <=? n) && (n <=? 222) && negb (n =? 215)))%nat
  then ascii_of_nat (n + 32)%nat else a.

Fixpoint toLowerCase (s : string) : string :=
  match s with
  | EmptyString => EmptyString
  | String a s' => String (lower_unit a) (toLowerCase s')
  end.

(** ** The engine (ical.js) *)

Record Engine := mkEngine {
  (** [ICAL.parse] followed by [new ICAL.Component]: a thrown error
      carries its [message]. *)
  parse : jsval -> string + comp;
  (** [Component.prototype.toString]. *)
  stringify : comp -> string;
  (** [design.getDesignSet(componentName)], a design set named by a string. *)
  getDesignSet : string -> string;
  (** [design.defaultSet], the design set of a property without parent. *)
  defaultSet : string;
  (** [designSet.property[name].defaultType] in a design set, or
      ["unknown"] ([design.defaultType]) when it gives none. *)
  propertyDefaultType : string -> string -> string;
  (** [designSet.value[type].decorate(value)] as [_setDecoratedValue] calls
      it, for a design set, a type and a string value: [Some message] when
      it throws an [Error], [None] when the type has no decorator or the
      decorator accepts the value (e.g. [Time.fromDateTimeString] throws
      "invalid date-time value" on a string shorter than
      "YYYY-MM-DDTHH:MM:SS"). *)
  decorate : string -> string -> string -> option string
}.

(** [design.defaultType] *)
Definition unknown_type : string := "unknown".

(** ** ical.js tree operations on jCal *)

Fixpoint first_index {A} (p : A -> bool) (l : list A) : option nat :=
  match l with
  | [] => None
  | x :: l' => if p x then Some 0 else S <$> first_index p l'
  end.

(** [Component.prototype.getFirstSubcomponent(name)]:
<<
    if (name) { ... the first subcomponent whose name is name ... }
    else if (comps.length) { return this._hydrateComponent(0); }
    return null;
>>  *)
Definition getFirstSubcomponent (name : string) (c : comp) : option nat :=
  if String.eqb name "" then
    match comp_subs c with [] => None | _ :: _ => Some 0 end
  else first_index (fun s => String.eqb (comp_name s) name) (comp_subs c).

(** [Component.prototype.getFirstProperty(name)]: the same, on the
    properties; a falsy name gives the first property, whatever its name. *)
Definition getFirstProperty (name : string) (c : comp) : option nat :=
  if String.eqb name "" then
    match comp_props c with [] => None | _ :: _ => Some 0 end
  else first_index (fun p => String.eqb (prop_name p) name) (comp_props c).

(** The jCal side of [Property.prototype.setValue(value)] for a string:
    [resetValues()] cuts the array to [[name, params, type]] and [value]
    becomes its only value. *)
Definition assign (value : string) (p : prop) : prop :=
  mkProp (prop_name p) (prop_params p) (prop_type p) [JStr value].

(** [Property.prototype.setValue(value)] on a property whose design set
    is [designSet]:
<<
    this.resetValues();
    if (this.isDecorated) { this._setDecoratedValue(value, 0); }
    else { this.jCal[VALUE_INDEX] = value; }
    // _setDecoratedValue: this.jCal[VALUE_INDEX] = value; this._values[0] = this._decorate(value);
>>
    The property afterwards and the message of the error thrown, if any;
    the value is in the jCal array before the decorator runs. *)
Definition setValue (E : Engine) (designSet value : string) (p : prop) : prop * option string :=
  (assign value p, decorate E designSet (prop_type p) value).

(** [new ICAL.Property(name)]: without a parent its design set is
    [design.defaultSet], which gives its type. *)
Definition newProperty (E : Engine) (name : string) : prop :=
  mkProp name [] (propertyDefaultType E (defaultSet E) name) [].

(** The [parent] setter run by [addProperty] on a property that had no
    parent: a type still equal to [design.defaultType] becomes the name's
    default type in the new parent's design set. *)
Definition set_parent (E : Engine) (designSet : string) (p : prop) : prop :=
  if String.eqb (prop_type p) unknown_type
  then mkProp (prop_name p) (prop_params p) (propertyDefaultType E designSet (prop_name p)) (prop_values p)
  else p.

(** [Component.prototype.updatePropertyWithValue(name, value)] on a
    component whose design set is [designSet]:
<<
    let prop = this.getFirstProperty(name);
    if (prop) { prop.setValue(value); }
    else { prop = this.addPropertyWithValue(name, value); }
    // addPropertyWithValue: let prop = new Property(name); prop.setValue(value); this.addProperty(prop);
>>
    [addProperty] pushes the property at the end of the list. The node
    afterwards and the message of the error thrown, if any. *)
Definition updatePropertyWithValue (E : Engine) (designSet name value : string) (c : comp)
    : comp * option string :=
  match getFirstProperty name c with
  | Some i =>
      match comp_props c !! i with
      | Some p =>
          let '(p', e) := setValue E designSet value p in
          (mkComp (comp_name c) (<[i := p']> (comp_props c)) (comp_subs c), e)
      | None => (c, None)
      end
  | None =>
      let '(p', e) := setValue E (defaultSet E) value (newProperty E name) in
      match e with
      | Some m => (c, Some m)
      | None => (mkComp (comp_name c) (comp_props c ++ [set_parent E designSet p']) (comp_subs c), None)
      end
  end.

(** A Component object handed out by ical.js aliases a node of the root's
    jCal array: [None] is the root itself, [Some i] its [i]-th child. *)
Definition compref := option nat.

Definition ref_lookup (r : compref) (root : comp) : option comp :=
  match r with
  | None => Some root
  | Some i => comp_subs root !! i
  end.

Definition alter_ref (r : compref) (f : comp -> comp) (root : comp) : comp :=
  match r with
  | None => f root
  | Some i => mkComp (comp_name root) (comp_props root) (alter f i (comp_subs root))
  end.

(** ** Errors, heap and the state-and-exception monad *)

Inductive err :=
| InvalidInput (msg : string)
| ParseFailure (msg : string)
| NoUpdatableComponent (msg : string)
| TypeError (msg : string)
(** an [Error] of ical.js thrown during the update loop, which
    updateFields does not catch *)
| EngineError (msg : string).

Inductive cell :=
| CObj (fields : gmap string jsval)
| CJCal (c : comp).

Abbreviation heap := (gmap loc cell).

Definition M (A : Type) : Type := heap -> heap * (err + A).

Definition mret {A} (x : A) : M A := fun h => (h, inr x).

Definition mbind {A B} (m : M A) (k : A -> M B) : M B :=
  fun h => match m h with
           | (h', inl e) => (h', inl e)
           | (h', inr x) => k x h'
           end.

Notation "'let*' x := m 'in' k" := (mbind m (fun x => k))
  (at level 200, x name, m at level 100, k at level 200, right associativity).

Definition throw {A} (e : err) : M A := fun h => (h, inl e).

Definition lift {A} (r : err + A) : M A := fun h => (h, r).

(** A new object: a location not yet in the heap. *)
Definition alloc (c : cell) : M loc :=
  fun h => let l := fresh (dom h) in (<[l := c]> h, inr l).

Definition read_jcal (l : loc) : M comp :=
  fun h => match h !! l with
           | Some (CJCal c) => (h, inr c)
           | _ => (h, inl (TypeError "not a component"))
           end.

Definition write_jcal (l : loc) (c : comp) : M unit :=
  fun h => (<[l := CJCal c]> h, inr ()).

(** [for (const x of xs) body(x)] *)
Fixpoint mfor_ {A} (xs : list A) (body : A -> M unit) : M unit :=
  match xs with
  | [] => mret ()
  | x :: xs' => let* _ := body x in mfor_ xs' body
  end.

(** ** The function under verification *)

(** [CalendarObjectInput = string | { data: string; [key: string]: any }];
    an object is a reference into the heap. *)
Inductive CalendarObjectInput :=
| InStr (s : string)
| InObj (l : loc).

(** [FieldUpdates], as the list [Object.entries(fields)] enumerates it. *)
Abbreviation FieldUpdates := (list (string * string)).

(** [typeof calendarObject === 'string' ? calendarObject : calendarObject.data];
    a missing field reads as [undefined]. *)
Definition data_of (h : heap) (calendarObject : CalendarObjectInput) : jsval :=
  match calendarObject with
  | InStr s => JStr s
  | InObj l =>
      match h !! l with
      | Some (CObj o) => default JUndef (o !! "data")
      | _ => JUndef
      end
  end.

Definition extract_data (calendarObject : CalendarObjectInput) : M jsval :=
  fun h => (h, inr (data_of h calendarObject)).

Definition dq : string := String (ascii_of_nat 34%nat) EmptyString.

Definition invalid_input_msg : string :=
  "Invalid input: calendarObject must be a string or object with " +:+ dq +:+ "data" +:+ dq +:+ " field".

Definition no_component_msg : string := "No VEVENT, VTODO, or VJOURNAL found in VCALENDAR".

(** [a || b] on objects-or-null *)
Definition js_or {A} (a b : option A) : option A :=
  match a with Some _ => a | None => b end.

(** Step 3: find the component to update. *)
Definition locate_target (component : comp) : err + compref :=
  if String.eqb (comp_name component) "vcalendar" then
    match js_or (getFirstSubcomponent "vevent" component)
            (js_or (getFirstSubcomponent "vtodo" component)
                   (getFirstSubcomponent "vjournal" component)) with
    | Some i => inr (Some i)
    | None => inl (NoUpdatableComponent no_component_msg)
    end
  else inr None.

(** Step 2: [try { ICAL.parse; new ICAL.Component } catch (error) { throw ... }] *)
Definition parse_step (E : Engine) (icalString : jsval) : M comp :=
  match parse E icalString with
  | inl message => throw (ParseFailure ("Failed to parse iCal data: " +:+ message))
  | inr jcal => mret jcal
  end.

(** [actualComponent.updatePropertyWithValue(key, value)] through the
    alias; the jCal array is written even when [setValue] throws. The
    alias always points to a node ([locate_target] returns no other), so
    the [TypeError] branch is not reached from [updateFields]. *)
Definition updatePropertyWithValueM (E : Engine) (designSet : string) (component : loc)
    (actual : compref) (name value : string) : M unit :=
  let* root := read_jcal component in
  match ref_lookup actual root with
  | None => throw (TypeError "not a component")
  | Some c =>
      let '(c', e) := updatePropertyWithValue E designSet name value c in
      let* _ := write_jcal component (alter_ref actual (fun _ => c') root) in
      match e with
      | Some m => throw (EngineError m)
      | None => mret ()
      end
  end.

Definition updateFields (E : Engine) (calendarObject : CalendarObjectInput)
    (fields : FieldUpdates) : M string :=
  let* icalString := extract_data calendarObject in
  if negb (truthy icalString) then throw (InvalidInput invalid_input_msg) else
  let* jcalData := parse_step E icalString in
  let* component := alloc (CJCal jcalData) in
  let* root := read_jcal component in
  let* actualComponent := lift (locate_target root) in
  (* actualComponent._designSet: a child has its parent's, the root its own *)
  let designSet := getDesignSet E (comp_name root) in
  let* _ := mfor_ fields (fun '(key, value) =>
    updatePropertyWithValueM E designSet component actualComponent (toLowerCase key) value) in
  let* final := read_jcal component in
  mret (stringify E final).

(** The returned value (or thrown error) of a call. *)
Definition updateFields_result (E : Engine) (h : heap) (inp : CalendarObjectInput)
    (fields : FieldUpdates) : err + string :=
  snd (updateFields E inp fields h).

(** ** The update loop, node by node *)

(** The loop of step 4 on one node: the node it leaves and the message of
    the error that stops it, if any. *)
Fixpoint upsert_node (E : Engine) (designSet : string) (fields : FieldUpdates) (c : comp)
    : comp * option string :=
  match fields with
  | [] => (c, None)
  | (key, value) :: fields' =>
      match updatePropertyWithValue E designSet (toLowerCase key) value c with
      | (c', Some m) => (c', Some m)
      | (c', None) => upsert_node E designSet fields' c'
      end
  end.

(** The loop of step 4 through the alias [r] on the root: the tree it
    leaves and the error it throws, if any. *)
Definition upsert_all (E : Engine) (designSet : string) (r : compref) (fields : FieldUpdates)
    (root : comp) : comp * option err :=
  match ref_lookup r root with
  | Some c =>
      let '(c', e) := upsert_node E designSet fields c in
      (alter_ref r (fun _ => c') root, EngineError <$> e)
  | None => (root, match fields with [] => None | _ :: _ => Some (TypeError "not a component") end)
  end.

(** ** The spec's vocabulary *)

(** Spec §3, "Update Target": the event, task and journal types in
    priority order, and the first of them that has a child. *)
Definition priority_types : list string := ["vevent"; "vtodo"; "vjournal"].

Definition has_child (t : comp) (ty : string) : bool :=
  existsb (fun s => String.eqb (comp_name s) ty) (comp_subs t).

Definition selected_type (t : comp) : option string :=
  List.find (has_child t) priority_types.

(** [i] is the position of the first child of the selected type. *)
Definition is_update_target_index (t : comp) (i : nat) : Prop :=
  exists ty c, selected_type t = Some ty /\ comp_subs t !! i = Some c /\ comp_name c = ty /\
    forall j c0, (j < i)%nat -> comp_subs t !! j = Some c0 -> comp_name c0 <> ty.

(** A valid record: non-empty input that the engine parses, and whose
    container, if it is one, has something to update. *)
Definition valid_record (E : Engine) (v : jsval) : Prop :=
  truthy v = true /\ exists t, parse E v = inr t /\
    (comp_name t = "vcalendar" -> selected_type t <> None).

(** [c] is the update target of the parsed tree [t] and [c'] the node at
    the same place in the tree [t'] that is serialised. *)
Definition target_pair (t t' c c' : comp) : Prop :=
  if String.eqb (comp_name t) "vcalendar" then
    exists i, is_update_target_index t i /\ comp_subs t !! i = Some c /\ comp_subs t' !! i = Some c'
  else c = t /\ c' = t'.

(** A property is kept out of the update when its name is, up to case,
    no key of the field map. *)
Definition keep (fields : FieldUpdates) (p : prop) : bool :=
  forallb (fun '(key, _) => negb (String.eqb (toLowerCase (prop_name p)) (toLowerCase key))) fields.

Definition count_named (name : string) (c : comp) : nat :=
  length (List.filter (fun p => String.eqb (prop_name p) name) (comp_props c)).

(** ** The update loop when every value is accepted

    [upd_named] is [updatePropertyWithValue] for a name looked up among
    the properties by [first_index], when the engine accepts the value;
    [upsert_named] runs it over a list of (name, value) pairs. *)

Definition added_prop (E : Engine) (designSet name value : string) : prop :=
  set_parent E designSet (assign value (newProperty E name)).

(** The position of the first property named [name]. *)
Definition find_prop (name : string) (c : comp) : option nat :=
  first_index (fun p => String.eqb (prop_name p) name) (comp_props c).

Definition upd_named (E : Engine) (designSet name value : string) (c : comp) : comp :=
  match find_prop name c with
  | Some i => mkComp (comp_name c) (alter (assign value) i (comp_props c)) (comp_subs c)
  | None => mkComp (comp_name c) (comp_props c ++ [added_prop E designSet name value]) (comp_subs c)
  end.

Definition upsert_named (E : Engine) (designSet : string) (N : list (string * string)) (c : comp)
    : comp :=
  fold_left (fun c '(name, value) => upd_named E designSet name value c) N c.

(** The (name, value) pairs of the loop: keys lowercased. *)
Definition lowered (fields : FieldUpdates) : list (string * string) :=
  map (fun '(key, value) => (toLowerCase key, value)) fields.

(** The name the empty key stands for: [getFirstProperty("")] returns
    the first property, which keeps its name for the rest of the loop;
    on a node without properties the first entry creates it. *)
Definition first_name (c : comp) (N : list (string * string)) : string :=
  match comp_props c, N with
  | p :: _, _ => prop_name p
  | [], (n, _) :: _ => n
  | [], [] => ""
  end.

Definition resolve_names (c : comp) (N : list (string * string)) : list (string * string) :=
  map (fun '(n, v) => (if String.eqb n "" then first_name c N else n, v)) N.

(** ** The loop in closed form *)

(** The value the loop leaves for the name [n]: that of the last pair
    whose name is [n]. *)
Definition last_value (N : list (string * string)) (n : string) : option string :=
  fold_left (fun acc '(m, value) => if String.eqb m n then Some value else acc) N None.

Definition has_prop (n : string) (ps : list prop) : bool :=
  existsb (fun p => String.eqb (prop_name p) n) ps.

(** The names that no property of [c] has, each once, in the order of
    their first pair. *)
Definition new_names (N : list (string * string)) (c : comp) : list string :=
  fold_left (fun acc '(n, _) =>
      if has_prop n (comp_props c) || existsb (String.eqb n) acc then acc else (acc ++ [n])%list)
    N [].

(** The first property of each name that [N] sets gets the name's last
    value; [seen] are the names met before. *)
Fixpoint mark_first (N : list (string * string)) (seen : list string) (ps : list prop) : list prop :=
  match ps with
  | [] => []
  | p :: ps' =>
      (if existsb (String.eqb (prop_name p)) seen then p else
       match last_value N (prop_name p) with
       | Some v => assign v p
       | None => p
       end) :: mark_first N (prop_name p :: seen) ps'
  end.

Definition new_prop (E : Engine) (designSet : string) (N : list (string * string)) (n : string) : prop :=
  match last_value N n with
  | Some v => added_prop E designSet n v
  | None => set_parent E designSet (newProperty E n)
  end.

(** The node the loop leaves: the original properties, the first one of
    each updated name set to its last value, followed by one new property
    per name the node lacked. *)
Definition upsert_result (E : Engine) (designSet : string) (N : list (string * string)) (c : comp)
    : comp :=
  mkComp (comp_name c)
    (mark_first N [] (comp_props c) ++ map (new_prop E designSet N) (new_names N c))%list
    (comp_subs c).

(** ** A finite-table engine for concrete runs

    It prints a tree in iCalendar line syntax and parses exactly the
    printed forms of a few sample records. Its design-set tables give a
    few names of RFC 5545 and RFC 6350 their types, and its date-time
    decorator rejects, as [Time.fromDateTimeString] does, a string shorter
    than the 19 characters of "YYYY-MM-DDTHH:MM:SS". *)

Definition crlf : string := String (ascii_of_nat 13%nat) (String (ascii_of_nat 10%nat) EmptyString).

Definition upper_ascii (a : ascii) : ascii :=
  let n := nat_of_ascii a in
  if ((97 <=? n) && (n <=? 122))%nat then ascii_of_nat (n - 32)%nat else a.

Fixpoint demo_upper (s : string) : string :=
  match s with
  | EmptyString => EmptyString
  | String a s' => String (upper_ascii a) (demo_upper s')
  end.

Definition value_text (v : jsval) : string :=
  match v with
  | JStr s => s
  | JNum n => pretty n
  | JBool b => if b then "TRUE" else "FALSE"
  | _ => ""
  end.

Definition prop_line (p : prop) : string :=
  demo_upper (prop_name p) +:+
  String.concat "" (map (fun '(k, v) => ";" +:+ demo_upper k +:+ "=" +:+ value_text v) (prop_params p)) +:+
  ":" +:+ String.concat "," (map value_text (prop_values p)) +:+ crlf.

Fixpoint demo_stringify (c : comp) : string :=
  match c with
  | mkComp name props subs =>
      "BEGIN:" +:+ demo_upper name +:+ crlf +:+
      String.concat "" (map prop_line props) +:+
      String.concat "" (map demo_stringify subs) +:+
      "END:" +:+ demo_upper name +:+ crlf
  end.

Definition text_prop (name value : string) : prop := mkProp name [] "text" [JStr value].

Definition event_main : comp :=
  mkComp "vevent" [text_prop "uid" "test-event-12345@example.com"; text_prop "summary" "Original";
                   text_prop "location" "Conference Room A"]
    [mkComp "valarm" [text_prop "action" "DISPLAY"; text_prop "summary" "Reminder"] []].

Definition event_cal : comp :=
  mkComp "vcalendar" [text_prop "version" "2.0"; text_prop "prodid" "-//Example//EN"]
    [mkComp "vtimezone" [text_prop "tzid" "Europe/Berlin"] [];
     event_main;
     mkComp "vevent" [text_prop "uid" "second@example.com"; text_prop "summary" "Other"] []].

Definition journal_todo_cal : comp :=
  mkComp "vcalendar" [text_prop "version" "2.0"]
    [mkComp "vjournal" [text_prop "summary" "Notes"] [];
     mkComp "vtodo" [text_prop "summary" "Task"; mkProp "priority" [] "integer" [JNum 5]] []].

Definition contact_card : comp :=
  mkComp "vcard" [text_prop "version" "4.0"; text_prop "fn" "John Doe"; text_prop "email" "john@example.com"] [].

Definition tz_only_cal : comp :=
  mkComp "vcalendar" [text_prop "version" "2.0"] [mkComp "vtimezone" [text_prop "tzid" "UTC"] []].

Definition demo_samples : list comp := [event_cal; journal_todo_cal; contact_card; tz_only_cal].

Definition demo_parse (v : jsval) : string + comp :=
  match v with
  | JStr s =>
      match List.find (fun t => String.eqb (demo_stringify t) s) demo_samples with
      | Some t => inr t
      | None => inl "invalid line (no token ; or :)"
      end
  | _ => inl "input is not a string"
  end.

Definition demo_getDesignSet (name : string) : string :=
  if String.eqb name "vcard" then "vcard" else "icalendar".

Definition demo_propertyDefaultType (designSet name : string) : string :=
  if String.eqb designSet "vcard" then
    if existsb (String.eqb name) ["bday"; "anniversary"] then "date-and-or-time" else
    if existsb (String.eqb name) ["fn"; "email"; "note"] then "text" else unknown_type
  else
    if existsb (String.eqb name) ["dtstart"; "dtend"; "due"; "dtstamp"; "created"] then "date-time" else
    if existsb (String.eqb name) ["summary"; "location"; "description"; "status"; "uid"] then "text"
    else unknown_type.

Definition demo_decorate (designSet type value : string) : option string :=
  if String.eqb type "date-time" then
    if (String.length value <? 19)%nat then Some ("invalid date-time value: " +:+ dq +:+ value +:+ dq)
    else None
  else None.

Definition demo_engine : Engine :=
  mkEngine demo_parse demo_stringify demo_getDesignSet "icalendar" demo_propertyDefaultType demo_decorate.

Definition event_text : string := demo_stringify event_cal.
Definition journal_todo_text : string := demo_stringify journal_todo_cal.
Definition contact_text : string := demo_stringify contact_card.

(** The caller's heap: a tsdav object [{ data, etag, url }] at location 1. *)
Definition dav_fields (data : jsval) (etag : string) : gmap string jsval :=
  <["data" := data]> (<["etag" := JStr etag]> (<["url" := JStr "https://example.com/cal/event.ics"]> ∅)).

Definition dav_object (data : jsval) (etag : string) : cell := CObj (dav_fields data etag).

Definition h_dav (data : jsval) (etag : string) : heap := {[ 1%positive := dav_object data etag ]}.

(** ** An engine that reads back what it prints

    Trees are printed in a prefix code (strings as ["+"]-prefixed
    characters ended by ["."], lists as [","]-prefixed elements ended by
    ["]"]) and parsed back with fuel. *)

Fixpoint enc_pos (p : positive) : list ascii :=
  match p with
  | xI p' => "1"%char :: enc_pos p'
  | xO p' => "0"%char :: enc_pos p'
  | xH => ["H"%char]
  end.

Fixpoint dec_pos (l : list ascii) : option (positive * list ascii) :=
  match l with
  | [] => None
  | a :: l' =>
      if Ascii.eqb a "H"%char then Some (xH, l') else
      if Ascii.eqb a "1"%char then
        match dec_pos l' with Some (p, r) => Some (xI p, r) | None => None end else
      if Ascii.eqb a "0"%char then
        match dec_pos l' with Some (p, r) => Some (xO p, r) | None => None end
      else None
  end.

Definition enc_Z (z : Z) : list ascii :=
  match z with
  | Z0 => ["z"%char]
  | Zpos p => "p"%char :: enc_pos p
  | Zneg p => "n"%char :: enc_pos p
  end.

Definition dec_Z (l : list ascii) : option (Z * list ascii) :=
  match l with
  | [] => None
  | a :: l' =>
      if Ascii.eqb a "z"%char then Some (Z0, l') else
      if Ascii.eqb a "p"%char then
        match dec_pos l' with Some (p, r) => Some (Zpos p, r) | None => None end else
      if Ascii.eqb a "n"%char then
        match dec_pos l' with Some (p, r) => Some (Zneg p, r) | None => None end
      else None
  end.

Fixpoint enc_str (s : string) : list ascii :=
  match s with
  | EmptyString => ["."%char]
  | String a s' => "+"%char :: a :: enc_str s'
  end.

Fixpoint dec_str (l : list ascii) : option (string * list ascii) :=
  match l with
  | [] => None
  | a :: l1 =>
      if Ascii.eqb a "."%char then Some (EmptyString, l1) else
      if Ascii.eqb a "+"%char then
        match l1 with
        | [] => None
        | b :: l2 => match dec_str l2 with Some (s, r) => Some (String b s, r) | None => None end
        end
      else None
  end.

Definition enc_js (v : jsval) : list ascii :=
  match v with
  | JUndef => ["u"%char]
  | JNull => ["l"%char]
  | JBool true => ["t"%char]
  | JBool false => ["f"%char]
  | JNum n => "#"%char :: enc_Z n
  | JStr s => "s"%char :: enc_str s
  | JRef l => "r"%char :: enc_pos l
  end.

Definition dec_js (l : list ascii) : option (jsval * list ascii) :=
  match l with
  | [] => None
  | a :: l' =>
      if Ascii.eqb a "u"%char then Some (JUndef, l') else
      if Ascii.eqb a "l"%char then Some (JNull, l') else
      if Ascii.eqb a "t"%char then Some (JBool true, l') else
      if Ascii.eqb a "f"%char then Some (JBool false, l') else
      if Ascii.eqb a "#"%char then
        match dec_Z l' with Some (n, r) => Some (JNum n, r) | None => None end else
      if Ascii.eqb a "s"%char then
        match dec_str l' with Some (s, r) => Some (JStr s, r) | None => None end else
      if Ascii.eqb a "r"%char then
        match dec_pos l' with Some (p, r) => Some (JRef p, r) | None => None end
      else None
  end.

Fixpoint enc_list {A} (e : A -> list ascii) (xs : list A) : list ascii :=
  match xs with
  | [] => ["]"%char]
  | x :: xs' => ","%char :: (e x ++ enc_list e xs')%list
  end.

Fixpoint dec_list {A} (fuel : nat) (d : list ascii -> option (A * list ascii)) (l : list ascii)
    : option (list A * list ascii) :=
  match fuel with
  | O => None
  | S f =>
      match l with
      | [] => None
      | a :: l1 =>
          if Ascii.eqb a "]"%char then Some ([], l1) else
          if Ascii.eqb a ","%char then
            match d l1 with
            | Some (x, l2) =>
                match dec_list f d l2 with Some (xs, l3) => Some (x :: xs, l3) | None => None end
            | None => None
            end
          else None
      end
  end.

Definition enc_param (kv : string * jsval) : list ascii := (enc_str kv.1 ++ enc_js kv.2)%list.

Definition dec_param (l : list ascii) : option ((string * jsval) * list ascii) :=
  match dec_str l with
  | Some (k, l1) => match dec_js l1 with Some (v, l2) => Some ((k, v), l2) | None => None end
  | None => None
  end.

Definition enc_prop (p : prop) : list ascii :=
  (enc_str (prop_name p) ++ enc_list enc_param (prop_params p) ++
   enc_str (prop_type p) ++ enc_list enc_js (prop_values p))%list.

Definition dec_prop (l : list ascii) : option (prop * list ascii) :=
  match dec_str l with
  | Some (n, l1) =>
      match dec_list (length l1) dec_param l1 with
      | Some (ps, l2) =>
          match dec_str l2 with
          | Some (ty, l3) =>
              match dec_list (length l3) dec_js l3 with
              | Some (vs, l4) => Some (mkProp n ps ty vs, l4)
              | None => None
              end
          | None => None
          end
      | None => None
      end
  | None => None
  end.

Fixpoint enc_comp (c : comp) : list ascii :=
  match c with
  | mkComp n ps subs => "C"%char :: (enc_str n ++ enc_list enc_prop ps ++ enc_list enc_comp subs)%list
  end.

Fixpoint dec_comp (fuel : nat) (l : list ascii) : option (comp * list ascii) :=
  match fuel with
  | O => None
  | S f =>
      match l with
      | [] => None
      | a :: l1 =>
          if Ascii.eqb a "C"%char then
            match dec_str l1 with
            | Some (n, l2) =>
                match dec_list (length l2) dec_prop l2 with
                | Some (ps, l3) =>
                    match dec_list (length l3) (dec_comp f) l3 with
                    | Some (subs, l4) => Some (mkComp n ps subs, l4)
                    | None => None
                    end
                | None => None
                end
            | None => None
            end
          else None
      end
  end.

Definition rt_stringify (c : comp) : string := String.string_of_list_ascii (enc_comp c).

Definition rt_parse (v : jsval) : string + comp :=
  match v with
  | JStr s =>
      let l := String.list_ascii_of_string s in
      match dec_comp (length l) l with
      | Some (c, []) => inr c
      | _ => inl "malformed record"
      end
  | _ => inl "input is not a string"
  end.

Definition rt_engine : Engine :=
  mkEngine rt_parse rt_stringify demo_getDesignSet "icalendar" demo_propertyDefaultType demo_decorate.

(** Induction on trees through their list of children. *)
Fixpoint comp_ind_nested (P : comp -> Prop)
    (H : forall n ps subs, Forall P subs -> P (mkComp n ps subs)) (c : comp) : P c :=
  match c with
  | mkComp n ps subs =>
      H n ps subs
        ((fix go (l : list comp) : Forall P l :=
            match l return Forall P l with
            | [] => @List.Forall_nil _ P
            | x :: l' => @List.Forall_cons _ P x l' (comp_ind_nested P H x) (go l')
            end) subs)
  end.


(** The round-trip engine with a vCard [date-and-or-time] decorator that
    also rejects values shorter than eight characters. *)
Definition strict_decorate (designSet type value : string) : option string :=
  if String.eqb type "date-and-or-time" then
    if (String.length value <? 8)%nat then Some ("invalid date-and-or-time value: " +:+ dq +:+ value +:+ dq)
    else None
  else demo_decorate designSet type value.

Definition strict_engine : Engine :=
  mkEngine rt_parse rt_stringify demo_getDesignSet "icalendar" demo_propertyDefaultType strict_decorate.

(** * Proofs *)

(** ** Case mapping *)

Lemma lower_unit_idem (a : ascii) : lower_unit (lower_unit a) = lower_unit a.
Proof. destruct a as [[] [] [] [] [] [] [] []]; reflexivity. Qed.

Lemma toLowerCase_idem (s : string) : toLowerCase (toLowerCase s) = toLowerCase s.
Proof. induction s as [|a s IH]; simpl; [done|]. by rewrite lower_unit_idem, IH. Qed.

Lemma toLowerCase_empty (s : string) : toLowerCase s = "" <-> s = "".
Proof. destruct s; simpl; split; congruence. Qed.

(** ** Aliased updates *)

Lemma alter_ref_compose (r : compref) (f g : comp -> comp) (root : comp) :
  alter_ref r f (alter_ref r g root) = alter_ref r (f ∘ g) root.
Proof. destruct r as [i|]; simpl; [|done]. by rewrite list_alter_alter_eq. Qed.

Lemma list_alter_as_insert {A} (f : A -> A) (l : list A) i x :
  l !! i = Some x -> alter f i l = <[i := f x]> l.
Proof.
  revert i; induction l as [|y l IH]; intros [|i] Hx; simpl in *; try done.
  - by injection Hx as ->.
  - f_equal. by apply IH.
Qed.

Lemma alter_ref_same (r : compref) (root c : comp) :
  ref_lookup r root = Some c -> alter_ref r (fun _ => c) root = root.
Proof.
  destruct r as [i|]; simpl; intros H; [|by injection H as ->].
  rewrite (list_alter_as_insert _ _ _ c H), list_insert_id by done. by destruct root.
Qed.

Lemma ref_lookup_alter (r : compref) (root c : comp) (f : comp -> comp) :
  ref_lookup r root = Some c -> ref_lookup r (alter_ref r f root) = Some (f c).
Proof.
  destruct r as [i|]; simpl; intros H; [|by injection H as ->].
  by rewrite list_lookup_alter_eq, H.
Qed.

Lemma alter_ref_name (r : compref) (root c c' : comp) :
  ref_lookup r root = Some c -> comp_name c' = comp_name c ->
  comp_name (alter_ref r (fun _ => c') root) = comp_name root.
Proof. destruct r as [i|]; simpl; intros H Hn; [done|]. injection H as ->. done. Qed.

(** ** One [updatePropertyWithValue] *)

Lemma set_parent_name E S p : prop_name (set_parent E S p) = prop_name p.
Proof. unfold set_parent. by destruct (String.eqb _ _). Qed.

Lemma set_parent_values E S p : prop_values (set_parent E S p) = prop_values p.
Proof. unfold set_parent. by destruct (String.eqb _ _). Qed.

Lemma assign_set_parent E S v p : assign v (set_parent E S p) = set_parent E S (assign v p).
Proof. unfold set_parent, assign. by destruct (String.eqb _ _). Qed.

Lemma assign_assign v w p : assign v (assign w p) = assign v p.
Proof. reflexivity. Qed.

Lemma added_prop_name E S n v : prop_name (added_prop E S n v) = n.
Proof. unfold added_prop. by rewrite set_parent_name. Qed.

Lemma added_prop_values E S n v : prop_values (added_prop E S n v) = [JStr v].
Proof. unfold added_prop. by rewrite set_parent_values. Qed.

Lemma added_prop_type E S n v :
  prop_type (added_prop E S n v) = prop_type (set_parent E S (newProperty E n)).
Proof. unfold added_prop, set_parent, assign. by destruct (String.eqb _ _). Qed.

Lemma getFirstProperty_named n c : n <> "" -> getFirstProperty n c = find_prop n c.
Proof. intros Hn. unfold getFirstProperty. by destruct (String.eqb_spec n ""). Qed.

Lemma upd_fst_name E S n v c : comp_name (updatePropertyWithValue E S n v c).1 = comp_name c.
Proof.
  unfold updatePropertyWithValue, setValue.
  destruct (getFirstProperty n c) as [i|]; [by destruct (comp_props c !! i)|].
  by destruct (decorate _ _ _ _).
Qed.

Lemma upd_fst_subs E S n v c : comp_subs (updatePropertyWithValue E S n v c).1 = comp_subs c.
Proof.
  unfold updatePropertyWithValue, setValue.
  destruct (getFirstProperty n c) as [i|]; [by destruct (comp_props c !! i)|].
  by destruct (decorate _ _ _ _).
Qed.

(** ** Running the monadic code *)

Lemma upsert_all_found E S r (F : FieldUpdates) (root c : comp) :
  ref_lookup r root = Some c ->
  upsert_all E S r F root =
  (alter_ref r (fun _ => (upsert_node E S F c).1) root, EngineError <$> (upsert_node E S F c).2).
Proof. intros H. unfold upsert_all. rewrite H. by destruct (upsert_node E S F c). Qed.

Lemma mfor_upsert_run E S l r (F : FieldUpdates) :
  forall (h : heap) root, h !! l = Some (CJCal root) ->
  mfor_ F (fun '(key, value) => updatePropertyWithValueM E S l r (toLowerCase key) value) h =
  (<[l := CJCal (upsert_all E S r F root).1]> h,
   match (upsert_all E S r F root).2 with Some e => inl e | None => inr () end).
Proof.
  induction F as [|[k v] F IH]; intros h root Hl.
  - unfold upsert_all. cbn [mfor_]. unfold mret.
    destruct (ref_lookup r root) as [c|] eqn:Hr; simpl.
    + rewrite alter_ref_same by done. by rewrite insert_id.
    + by rewrite insert_id.
  - cbn [mfor_]. unfold mbind at 1, updatePropertyWithValueM, mbind at 1, read_jcal.
    rewrite Hl. unfold upsert_all. cbn [upsert_node].
    destruct (ref_lookup r root) as [c|] eqn:Hr; [|unfold throw; by rewrite insert_id].
    destruct (updatePropertyWithValue E S (toLowerCase k) v c) as [c1 [m|]] eqn:Hu;
      unfold mbind, write_jcal, throw, mret.
    + reflexivity.
    + rewrite (IH _ (alter_ref r (fun _ => c1) root)) by apply lookup_insert_eq.
      unfold upsert_all. rewrite (ref_lookup_alter r root c) by done.
      destruct (upsert_node E S F c1) as [c2 e2]. simpl.
      rewrite alter_ref_compose, insert_insert_eq. reflexivity.
Qed.

(** A call either throws before allocating anything, or allocates one
    fresh cell for the parsed tree, updates it, and serialises it or
    throws the error of the update loop. *)
Lemma updateFields_run E inp (F : FieldUpdates) (h : heap) :
  updateFields E inp F h =
  if negb (truthy (data_of h inp)) then (h, inl (InvalidInput invalid_input_msg)) else
  match parse E (data_of h inp) with
  | inl m => (h, inl (ParseFailure ("Failed to parse iCal data: " +:+ m)))
  | inr t =>
      match locate_target t with
      | inl e => (<[fresh (dom h) := CJCal t]> h, inl e)
      | inr r =>
          (<[fresh (dom h) := CJCal (upsert_all E (getDesignSet E (comp_name t)) r F t).1]> h,
           match (upsert_all E (getDesignSet E (comp_name t)) r F t).2 with
           | Some e => inl e
           | None => inr (stringify E (upsert_all E (getDesignSet E (comp_name t)) r F t).1)
           end)
      end
  end.
Proof.
  unfold updateFields, mbind, extract_data.
  destruct (truthy (data_of h inp)); simpl; [|done].
  unfold parse_step. destruct (parse E (data_of h inp)) as [m|t]; simpl; [done|].
  unfold alloc, read_jcal, lift, mbind. rewrite lookup_insert_eq.
  destruct (locate_target t) as [e|r]; [done|].
  rewrite (mfor_upsert_run E _ _ r F _ t) by apply lookup_insert_eq.
  destruct (upsert_all E (getDesignSet E (comp_name t)) r F t) as [t' [e|]]; simpl.
  - by rewrite insert_insert_eq.
  - unfold mret. rewrite lookup_insert_eq, insert_insert_eq. reflexivity.
Qed.

Lemma updateFields_result_run E inp (F : FieldUpdates) (h : heap) :
  updateFields_result E h inp F =
  if negb (truthy (data_of h inp)) then inl (InvalidInput invalid_input_msg) else
  match parse E (data_of h inp) with
  | inl m => inl (ParseFailure ("Failed to parse iCal data: " +:+ m))
  | inr t =>
      match locate_target t with
      | inl e => inl e
      | inr r =>
          match (upsert_all E (getDesignSet E (comp_name t)) r F t).2 with
          | Some e => inl e
          | None => inr (stringify E (upsert_all E (getDesignSet E (comp_name t)) r F t).1)
          end
      end
  end.
Proof.
  unfold updateFields_result. rewrite updateFields_run.
  destruct (negb _); [done|]. destruct (parse E _); [done|].
  destruct (locate_target _); [done|]. by destruct (upsert_all _ _ _ _ _) as [? []].
Qed.

(** ** [first_index] *)

Lemma first_index_Some {A} (p : A -> bool) (l : list A) i :
  first_index p l = Some i ->
  exists x, l !! i = Some x /\ p x = true /\
    forall j y, (j < i)%nat -> l !! j = Some y -> p y = false.
Proof.
  revert i; induction l as [|x l IH]; intros i H; simpl in H; [done|].
  destruct (p x) eqn:Hx.
  - injection H as <-. exists x. split_and!; [done|done|]. intros j y Hj. lia.
  - destruct (first_index p l) as [i'|] eqn:Hi; simpl in H; [|done]. injection H as <-.
    destruct (IH i' eq_refl) as (y & Hy & Hpy & Hbefore). exists y. split_and!; [done|done|].
    intros [|j] z Hj Hz; simpl in Hz; [by injection Hz as <-|].
    apply (Hbefore j); [lia|done].
Qed.

Lemma first_index_None {A} (p : A -> bool) (l : list A) :
  first_index p l = None <-> existsb p l = false.
Proof.
  induction l as [|x l IH]; simpl; [done|].
  destruct (p x); simpl; [split; congruence|].
  destruct (first_index p l); simpl; rewrite <- IH; split; congruence.
Qed.

Lemma first_index_alter {A} (p : A -> bool) (f : A -> A) (l : list A) i :
  (forall x, p (f x) = p x) -> first_index p (alter f i l) = first_index p l.
Proof.
  intros Hf. revert i; induction l as [|x l IH]; intros [|i]; simpl; try done.
  - by rewrite Hf.
  - destruct (p x); [done|]. f_equal. apply IH.
Qed.

Lemma first_index_app {A} (p : A -> bool) (l1 l2 : list A) :
  first_index p (l1 ++ l2) =
  match first_index p l1 with
  | Some i => Some i
  | None => (fun i => length l1 + i)%nat <$> first_index p l2
  end.
Proof.
  induction l1 as [|x l1 IH]; simpl.
  - by destruct (first_index p l2).
  - destruct (p x); [done|]. rewrite IH.
    destruct (first_index p l1); simpl; [done|]. by destruct (first_index p l2).
Qed.

Lemma first_index_map {A B} (p : B -> bool) (f : A -> B) (l : list A) :
  first_index p (map f l) = first_index (fun x => p (f x)) l.
Proof. induction l as [|x l IH]; simpl; [done|]. by rewrite IH. Qed.

Lemma first_index_ext {A} (p q : A -> bool) (l : list A) :
  (forall x, p x = q x) -> first_index p l = first_index q l.
Proof. intros Hpq. induction l as [|x l IH]; simpl; [done|]. by rewrite Hpq, IH. Qed.

Lemma first_index_names n (l l' : list prop) :
  map prop_name l = map prop_name l' ->
  first_index (fun p => String.eqb (prop_name p) n) l =
  first_index (fun p => String.eqb (prop_name p) n) l'.
Proof.
  intros Hn.
  rewrite <- (first_index_map (fun s => String.eqb s n) prop_name l).
  rewrite <- (first_index_map (fun s => String.eqb s n) prop_name l').
  by rewrite Hn.
Qed.

Lemma first_index_insert {A} (p : A -> bool) (l : list A) i x y :
  l !! i = Some x -> p y = p x -> first_index p (<[i := y]> l) = first_index p l.
Proof.
  revert i; induction l as [|z l IH]; intros [|i] Hx Hy; simpl in *; try done.
  - injection Hx as ->. by rewrite Hy.
  - destruct (p z); [done|]. f_equal. by apply IH.
Qed.

Lemma find_prop_Some n c j :
  find_prop n c = Some j ->
  exists p, comp_props c !! j = Some p /\ prop_name p = n /\
    forall i q, (i < j)%nat -> comp_props c !! i = Some q -> prop_name q <> n.
Proof.
  intros (p & Hp & Hn & Hb)%first_index_Some. apply String.eqb_eq in Hn.
  exists p. split_and!; [done|done|].
  intros i q Hi Hq Heq. specialize (Hb i q Hi Hq). rewrite Heq, String.eqb_refl in Hb. done.
Qed.

Lemma find_prop_head p ps n v :
  find_prop (prop_name p) (mkComp n (p :: ps) v) = Some 0%nat.
Proof. unfold find_prop. simpl. by rewrite String.eqb_refl. Qed.

Lemma has_prop_first_index n ps :
  has_prop n ps = false <-> first_index (fun p => String.eqb (prop_name p) n) ps = None.
Proof. unfold has_prop. by rewrite first_index_None. Qed.

Lemma has_prop_find n c :
  has_prop n (comp_props c) = true -> exists i p, find_prop n c = Some i /\ comp_props c !! i = Some p.
Proof.
  intros H. destruct (find_prop n c) as [i|] eqn:Hi.
  - destruct (find_prop_Some _ _ _ Hi) as (p & Hp & _). by exists i, p.
  - apply has_prop_first_index in Hi. congruence.
Qed.

Lemma has_prop_names n (l l' : list prop) :
  map prop_name l = map prop_name l' -> has_prop n l = has_prop n l'.
Proof.
  revert l'; induction l as [|p l IH]; intros [|p' l'] Hn; simpl in *; try done.
  injection Hn as Hp Hl. unfold has_prop in *. simpl. rewrite Hp. f_equal. by apply IH.
Qed.

(** ** Locating the update target *)

Lemma gfs_named ty t :
  ty <> "" -> getFirstSubcomponent ty t = first_index (fun s => String.eqb (comp_name s) ty) (comp_subs t).
Proof. intros H. unfold getFirstSubcomponent. by destruct (String.eqb_spec ty ""). Qed.

Lemma gfs_Some_has t ty i :
  ty <> "" -> getFirstSubcomponent ty t = Some i -> has_child t ty = true.
Proof.
  intros Hty. rewrite gfs_named by done. unfold has_child. intros H.
  destruct (existsb _ _) eqn:He; [done|]. apply first_index_None in He. congruence.
Qed.

Lemma gfs_None_has t ty :
  ty <> "" -> getFirstSubcomponent ty t = None -> has_child t ty = false.
Proof. intros Hty. rewrite gfs_named by done. apply first_index_None. Qed.

Lemma gfs_target t ty i :
  ty <> "" -> getFirstSubcomponent ty t = Some i -> selected_type t = Some ty -> is_update_target_index t i.
Proof.
  intros Hty. rewrite gfs_named by done. intros H Hsel.
  destruct (first_index_Some _ _ _ H) as (c & Hc & Hn & Hb).
  apply String.eqb_eq in Hn. exists ty, c. split_and!; try done.
  intros j c0 Hj Hc0 Heq. specialize (Hb j c0 Hj Hc0). simpl in Hb.
  rewrite Heq, String.eqb_refl in Hb. done.
Qed.

Lemma locate_target_container t :
  comp_name t = "vcalendar" ->
  (selected_type t = None /\ locate_target t = inl (NoUpdatableComponent no_component_msg)) \/
  (exists i, is_update_target_index t i /\ locate_target t = inr (Some i)).
Proof.
  intros Hn. unfold locate_target. rewrite Hn. simpl. unfold js_or.
  assert (Hev : "vevent" <> "") by discriminate.
  assert (Hto : "vtodo" <> "") by discriminate.
  assert (Hjo : "vjournal" <> "") by discriminate.
  destruct (getFirstSubcomponent "vevent" t) as [i|] eqn:Ev.
  { right. exists i. split; [|done]. apply (gfs_target t "vevent"); [done|done|].
    unfold selected_type. simpl. by rewrite (gfs_Some_has _ _ _ Hev Ev). }
  destruct (getFirstSubcomponent "vtodo" t) as [i|] eqn:To.
  { right. exists i. split; [|done]. apply (gfs_target t "vtodo"); [done|done|].
    unfold selected_type. simpl. by rewrite (gfs_None_has _ _ Hev Ev), (gfs_Some_has _ _ _ Hto To). }
  destruct (getFirstSubcomponent "vjournal" t) as [i|] eqn:Jo.
  { right. exists i. split; [|done]. apply (gfs_target t "vjournal"); [done|done|].
    unfold selected_type. simpl.
    by rewrite (gfs_None_has _ _ Hev Ev), (gfs_None_has _ _ Hto To), (gfs_Some_has _ _ _ Hjo Jo). }
  left. split; [|done]. unfold selected_type. simpl.
  by rewrite (gfs_None_has _ _ Hev Ev), (gfs_None_has _ _ Hto To), (gfs_None_has _ _ Hjo Jo).
Qed.

Lemma locate_target_standalone t :
  comp_name t <> "vcalendar" -> locate_target t = inr None.
Proof.
  intros Hn. unfold locate_target. by destruct (String.eqb_spec (comp_name t) "vcalendar").
Qed.

Lemma locate_target_err t e : locate_target t = inl e -> e = NoUpdatableComponent no_component_msg.
Proof.
  unfold locate_target. destruct (String.eqb _ _); [|discriminate].
  destruct (js_or _ _); congruence.
Qed.

(** What a successful location means for the updated tree. *)
Lemma locate_target_update t r (f : comp -> comp) :
  locate_target t = inr r ->
  exists c, ref_lookup r t = Some c /\ target_pair t (alter_ref r f t) c (f c) /\
    (if String.eqb (comp_name t) "vcalendar" then
       exists i, r = Some i /\ is_update_target_index t i /\
         comp_props (alter_ref r f t) = comp_props t /\
         comp_subs t !! i = Some c /\ comp_subs (alter_ref r f t) = <[i := f c]> (comp_subs t)
     else r = None /\ c = t).
Proof.
  intros Hloc. unfold target_pair.
  destruct (String.eqb_spec (comp_name t) "vcalendar") as [Hn|Hn].
  - destruct (locate_target_container t Hn) as [[_ Hl] | (i & Hi & Hl)]; rewrite Hl in Hloc; [done|].
    injection Hloc as <-. pose proof Hi as (ty & c & Hsel & Hc & Hcn & Hb).
    exists c. simpl. split_and!.
    + done.
    + exists i. split_and!; [done|done|]. by rewrite list_lookup_alter_eq, Hc.
    + exists i. split_and!; try done. by apply list_alter_as_insert.
  - rewrite locate_target_standalone in Hloc by done. injection Hloc as <-.
    exists t. simpl. by split_and!.
Qed.

Lemma locate_target_lookup t r : locate_target t = inr r -> exists c, ref_lookup r t = Some c.
Proof.
  intros Hl. destruct (locate_target_update t r (fun c => c) Hl) as (c & Hc & _). by exists c.
Qed.

(** Replacing the target by a node of the same type name and children
    does not move the target. *)
Lemma locate_target_alter r t c c' :
  ref_lookup r t = Some c -> comp_name c' = comp_name c -> comp_subs c' = comp_subs c ->
  locate_target (alter_ref r (fun _ => c') t) = locate_target t.
Proof.
  intros Hc Hn Hs. destruct r as [i|]; simpl in *.
  - unfold locate_target, getFirstSubcomponent. simpl.
    rewrite (list_alter_as_insert _ _ _ c Hc).
    assert (Hins : forall ty, first_index (fun s => String.eqb (comp_name s) ty) (<[i:=c']> (comp_subs t)) =
                         first_index (fun s => String.eqb (comp_name s) ty) (comp_subs t)).
    { intros ty. apply (first_index_insert _ _ _ c); [done|]. by rewrite Hn. }
    rewrite !Hins. reflexivity.
  - injection Hc as <-. unfold locate_target, getFirstSubcomponent. by rewrite Hn, Hs.
Qed.

(** ** Results of a call *)

Lemma updateFields_result_located E h inp (F : FieldUpdates) t r c :
  truthy (data_of h inp) = true -> parse E (data_of h inp) = inr t ->
  locate_target t = inr r -> ref_lookup r t = Some c ->
  updateFields_result E h inp F =
  match upsert_node E (getDesignSet E (comp_name t)) F c with
  | (c', None) => inr (stringify E (alter_ref r (fun _ => c') t))
  | (_, Some m) => inl (EngineError m)
  end.
Proof.
  intros Ht Hp Hl Hc. rewrite updateFields_result_run, Ht, Hp. simpl. rewrite Hl.
  rewrite (upsert_all_found _ _ _ _ _ c) by done.
  by destruct (upsert_node E _ F c) as [c' [m|]].
Qed.

Lemma updateFields_success E h inp (F : FieldUpdates) s :
  updateFields_result E h inp F = inr s ->
  exists t r c c', truthy (data_of h inp) = true /\ parse E (data_of h inp) = inr t /\
    locate_target t = inr r /\ ref_lookup r t = Some c /\
    upsert_node E (getDesignSet E (comp_name t)) F c = (c', None) /\
    s = stringify E (alter_ref r (fun _ => c') t).
Proof.
  intros Hs. pose proof Hs as Hs'. rewrite updateFields_result_run in Hs.
  destruct (truthy (data_of h inp)) eqn:Ht; simpl in Hs; [|done].
  destruct (parse E (data_of h inp)) as [m|t] eqn:Hp; [done|].
  destruct (locate_target t) as [e|r] eqn:Hl; [done|].
  destruct (locate_target_lookup t r Hl) as [c Hc].
  rewrite (updateFields_result_located E h inp F t r c) in Hs' by done.
  destruct (upsert_node E _ F c) as [c' [m|]] eqn:Hu; [done|]. injection Hs' as <-.
  exists t, r, c, c'. by split_and!.
Qed.

Lemma updateFields_error E h inp (F : FieldUpdates) m :
  updateFields_result E h inp F = inl (EngineError m) ->
  exists t r c c', truthy (data_of h inp) = true /\ parse E (data_of h inp) = inr t /\
    locate_target t = inr r /\ ref_lookup r t = Some c /\
    upsert_node E (getDesignSet E (comp_name t)) F c = (c', Some m).
Proof.
  intros Hs. pose proof Hs as Hs'. rewrite updateFields_result_run in Hs.
  destruct (truthy (data_of h inp)) eqn:Ht; simpl in Hs; [|done].
  destruct (parse E (data_of h inp)) as [m'|t] eqn:Hp; [done|].
  destruct (locate_target t) as [e|r] eqn:Hl; [apply locate_target_err in Hl; congruence|].
  destruct (locate_target_lookup t r Hl) as [c Hc].
  rewrite (updateFields_result_located E h inp F t r c) in Hs' by done.
  destruct (upsert_node E _ F c) as [c' [m'|]] eqn:Hu; [|done]. injection Hs' as <-.
  exists t, r, c, c'. by split_and!.
Qed.

(** ** One step of the loop *)

(** A step that throws nothing is [upd_named] on the name it looks up: the
    key, or for the empty key the name of the first property. *)
Lemma upd_ok E S n v c c' hd :
  (comp_props c = [] -> hd = n) ->
  (forall p ps, comp_props c = p :: ps -> hd = prop_name p) ->
  updatePropertyWithValue E S n v c = (c', None) ->
  c' = upd_named E S (if String.eqb n "" then hd else n) v c.
Proof.
  intros Hnil Hcons. unfold updatePropertyWithValue, setValue, upd_named, added_prop.
  destruct (String.eqb_spec n "") as [->|Hn].
  - unfold getFirstProperty. rewrite String.eqb_refl.
    destruct (comp_props c) as [|p ps] eqn:Hps.
    + rewrite (Hnil eq_refl). unfold find_prop. rewrite Hps. simpl.
      destruct (decorate _ _ _ _); [done|]. intros [= <-]. reflexivity.
    + rewrite (Hcons p ps eq_refl). unfold find_prop. rewrite Hps. simpl.
      rewrite String.eqb_refl. simpl. intros [= <- _]. reflexivity.
  - rewrite getFirstProperty_named by done.
    destruct (find_prop n c) as [i|] eqn:Hi.
    + destruct (find_prop_Some _ _ _ Hi) as (p & Hp & _). rewrite Hp.
      intros [= <- _]. by rewrite (list_alter_as_insert _ _ _ p Hp).
    + destruct (decorate _ _ _ _); [done|]. intros [= <-]. reflexivity.
Qed.

(** A step that throws comes from a decorator run on the value. *)
Lemma upd_error E S n v c c' m :
  updatePropertyWithValue E S n v c = (c', Some m) ->
  exists S' ty, (S' = S \/ S' = defaultSet E) /\ decorate E S' ty v = Some m.
Proof.
  unfold updatePropertyWithValue, setValue.
  destruct (getFirstProperty n c) as [i|].
  - destruct (comp_props c !! i) as [p|]; [|done]. intros [= _ Hm].
    exists S, (prop_type p). split; [by left|done].
  - destruct (decorate _ _ _ _) as [m'|] eqn:Hd; [|done]. intros [= _ <-].
    eexists _, _. split; [by right|exact Hd].
Qed.

(** A step on a name that the node has runs the decorator of that
    property's type. *)
Lemma upd_present E S n hd v c i p :
  find_prop (if String.eqb n "" then hd else n) c = Some i -> comp_props c !! i = Some p ->
  (forall q qs, comp_props c = q :: qs -> hd = prop_name q) ->
  updatePropertyWithValue E S n v c =
  (upd_named E S (if String.eqb n "" then hd else n) v c, decorate E S (prop_type p) v).
Proof.
  intros Hi Hp Hcons. unfold updatePropertyWithValue, setValue, upd_named. rewrite Hi.
  destruct (String.eqb_spec n "") as [->|Hn].
  - unfold getFirstProperty. rewrite String.eqb_refl.
    destruct (comp_props c) as [|q qs] eqn:Hps; [done|].
    rewrite (Hcons q qs eq_refl) in Hi. unfold find_prop in Hi. rewrite Hps in Hi.
    simpl in Hi. rewrite String.eqb_refl in Hi. injection Hi as <-.
    simpl in Hp. injection Hp as ->. simpl. reflexivity.
  - rewrite getFirstProperty_named, Hi, Hp by done.
    by rewrite (list_alter_as_insert _ _ _ p Hp).
Qed.

Lemma upd_named_name E S n v c : comp_name (upd_named E S n v c) = comp_name c.
Proof. unfold upd_named. by destruct (find_prop n c). Qed.

Lemma upd_named_subs E S n v c : comp_subs (upd_named E S n v c) = comp_subs c.
Proof. unfold upd_named. by destruct (find_prop n c). Qed.

Lemma upd_named_length E S n v c :
  (length (comp_props c) <= length (comp_props (upd_named E S n v c)))%nat.
Proof.
  unfold upd_named. destruct (find_prop n c); simpl.
  - by rewrite length_alter.
  - rewrite length_app. simpl. lia.
Qed.

(** The first property keeps its name. *)
Lemma upd_named_head E S n v c p ps :
  comp_props c = p :: ps ->
  exists p' ps', comp_props (upd_named E S n v c) = p' :: ps' /\ prop_name p' = prop_name p.
Proof.
  intros Hps. unfold upd_named. destruct (find_prop n c) as [[|i]|]; simpl; rewrite Hps; simpl.
  - by eexists _, _.
  - by eexists _, _.
  - by eexists _, _.
Qed.

Lemma map_alter_same {A B} (f : A -> B) (g : A -> A) (l : list A) i :
  (forall x, f (g x) = f x) -> map f (alter g i l) = map f l.
Proof.
  intros Hg. revert i; induction l as [|x l IH]; intros [|i]; simpl; try done.
  - by rewrite Hg.
  - f_equal. apply IH.
Qed.

(** An update of a name the node has keeps every name and type. *)
Lemma upd_named_present E S n v c i :
  find_prop n c = Some i ->
  map prop_name (comp_props (upd_named E S n v c)) = map prop_name (comp_props c) /\
  map prop_type (comp_props (upd_named E S n v c)) = map prop_type (comp_props c).
Proof.
  intros Hi. unfold upd_named. rewrite Hi. simpl.
  split; by apply map_alter_same.
Qed.

(** ** The update loop *)

Lemma upsert_named_cons E S n v (N : list (string * string)) c :
  upsert_named E S ((n, v) :: N) c = upsert_named E S N (upd_named E S n v c).
Proof. reflexivity. Qed.

Lemma upsert_named_app E S (N1 N2 : list (string * string)) c :
  upsert_named E S (N1 ++ N2) c = upsert_named E S N2 (upsert_named E S N1 c).
Proof. unfold upsert_named. apply fold_left_app. Qed.

Lemma upsert_named_snoc E S (N : list (string * string)) n v c :
  upsert_named E S (N ++ [(n, v)]) c = upd_named E S n v (upsert_named E S N c).
Proof. by rewrite upsert_named_app. Qed.

Lemma upsert_named_name E S (N : list (string * string)) c :
  comp_name (upsert_named E S N c) = comp_name c.
Proof.
  revert c; induction N as [|[n v] N IH]; intros c; [done|].
  rewrite upsert_named_cons, IH. apply upd_named_name.
Qed.

Lemma upsert_named_subs E S (N : list (string * string)) c :
  comp_subs (upsert_named E S N c) = comp_subs c.
Proof.
  revert c; induction N as [|[n v] N IH]; intros c; [done|].
  rewrite upsert_named_cons, IH. apply upd_named_subs.
Qed.

Lemma upsert_named_head E S (N : list (string * string)) c p ps :
  comp_props c = p :: ps ->
  exists p' ps', comp_props (upsert_named E S N c) = p' :: ps' /\ prop_name p' = prop_name p.
Proof.
  revert c p ps; induction N as [|[n v] N IH]; intros c p ps Hps.
  - by exists p, ps.
  - rewrite upsert_named_cons.
    destruct (upd_named_head E S n v c p ps Hps) as (p1 & ps1 & Hps1 & Hn1).
    destruct (IH _ _ _ Hps1) as (p2 & ps2 & Hps2 & Hn2). exists p2, ps2. split; [done|congruence].
Qed.

Lemma upsert_node_cons E S k v (F : FieldUpdates) c :
  upsert_node E S ((k, v) :: F) c =
  match updatePropertyWithValue E S (toLowerCase k) v c with
  | (c', Some m) => (c', Some m)
  | (c', None) => upsert_node E S F c'
  end.
Proof. reflexivity. Qed.


Lemma upsert_node_fst_name E S (F : FieldUpdates) c : comp_name (upsert_node E S F c).1 = comp_name c.
Proof.
  revert c; induction F as [|[k v] F IH]; intros c; [done|].
  rewrite upsert_node_cons. pose proof (upd_fst_name E S (toLowerCase k) v c) as Hn.
  destruct (updatePropertyWithValue E S (toLowerCase k) v c) as [c1 [m|]]; simpl in *; [done|].
  by rewrite IH.
Qed.

Lemma upsert_node_fst_subs E S (F : FieldUpdates) c : comp_subs (upsert_node E S F c).1 = comp_subs c.
Proof.
  revert c; induction F as [|[k v] F IH]; intros c; [done|].
  rewrite upsert_node_cons. pose proof (upd_fst_subs E S (toLowerCase k) v c) as Hn.
  destruct (updatePropertyWithValue E S (toLowerCase k) v c) as [c1 [m|]]; simpl in *; [done|].
  by rewrite IH.
Qed.

Lemma upsert_node_error E S (F : FieldUpdates) c c' m :
  upsert_node E S F c = (c', Some m) ->
  exists k v S' ty, In (k, v) F /\ (S' = S \/ S' = defaultSet E) /\ decorate E S' ty v = Some m.
Proof.
  revert c; induction F as [|[k v] F IH]; intros c; [done|].
  rewrite upsert_node_cons.
  destruct (updatePropertyWithValue E S (toLowerCase k) v c) as [c1 [m'|]] eqn:Hu.
  - intros [= _ <-]. destruct (upd_error _ _ _ _ _ _ _ Hu) as (S' & ty & HS & Hd).
    exists k, v, S', ty. split_and!; [by left|done|done].
  - intros H. destruct (IH _ H) as (k' & v' & S' & ty & Hin & HS & Hd).
    exists k', v', S', ty. split_and!; [by right|done|done].
Qed.

Lemma resolve_names_cons c (N : list (string * string)) n v :
  resolve_names c ((n, v) :: N) =
  (if String.eqb n "" then first_name c ((n, v) :: N) else n, v) ::
  map (fun '(m, w) => (if String.eqb m "" then first_name c ((n, v) :: N) else m, w)) N.
Proof. reflexivity. Qed.

(** The loop with a head name [hd] standing for the empty key. *)
Lemma upsert_node_ok_head E S hd (F : FieldUpdates) :
  forall c c', (exists p ps, comp_props c = p :: ps /\ prop_name p = hd) ->
  upsert_node E S F c = (c', None) ->
  c' = upsert_named E S (map (fun '(n, v) => (if String.eqb n "" then hd else n, v)) (lowered F)) c.
Proof.
  induction F as [|[k v] F IH]; intros c c' Hhd Hrun.
  - by injection Hrun as <-.
  - rewrite upsert_node_cons in Hrun.
    destruct (updatePropertyWithValue E S (toLowerCase k) v c) as [c1 [m|]] eqn:Hu; [done|].
    destruct Hhd as (p & ps & Hps & Hp).
    apply (upd_ok E S _ v c c1 hd) in Hu; [|by rewrite Hps|by intros q qs; rewrite Hps; intros [= <- _]].
    cbn [lowered map]. rewrite upsert_named_cons, <- Hu. apply IH; [|done].
    subst c1. destruct (upd_named_head E S (if String.eqb (toLowerCase k) "" then hd else toLowerCase k) v c p ps Hps)
      as (p' & ps' & Hps' & Hn'). exists p', ps'. split; [done|congruence].
Qed.

(** A run that throws nothing is [upsert_named] on the resolved names. *)
Lemma upsert_node_ok E S (F : FieldUpdates) c c' :
  upsert_node E S F c = (c', None) -> c' = upsert_named E S (resolve_names c (lowered F)) c.
Proof.
  destruct (comp_props c) as [|p ps] eqn:Hps.
  - destruct F as [|[k v] F]; [by intros [= <-]|].
    rewrite upsert_node_cons.
    destruct (updatePropertyWithValue E S (toLowerCase k) v c) as [c1 [m|]] eqn:Hu; [done|].
    intros Hrest.
    apply (upd_ok E S _ v c c1 (toLowerCase k)) in Hu; [|done|by rewrite Hps].
    assert (Hres : resolve_names c (lowered ((k, v) :: F)) =
      map (fun '(n, w) => (if String.eqb n "" then toLowerCase k else n, w)) (lowered ((k, v) :: F))).
    { unfold resolve_names, first_name. by rewrite Hps. }
    rewrite Hres. cbn [lowered map]. rewrite upsert_named_cons.
    replace (if String.eqb (toLowerCase k) "" then toLowerCase k else toLowerCase k) with (toLowerCase k)
      in * by (by destruct (String.eqb _ _)).
    rewrite <- Hu. apply (upsert_node_ok_head E S (toLowerCase k) F c1 c'); [|done].
    subst c1. unfold upd_named, find_prop. rewrite Hps. simpl.
    eexists _, []. split; [reflexivity|]. apply added_prop_name.
  - intros Hrun. apply (upsert_node_ok_head E S (prop_name p)) in Hrun; [|by exists p, ps].
    rewrite Hrun. unfold resolve_names, first_name. by rewrite Hps.
Qed.

Lemma resolve_names_nonempty c (F : FieldUpdates) :
  (forall kv, In kv F -> kv.1 <> "") -> resolve_names c (lowered F) = lowered F.
Proof.
  intros Hne. unfold resolve_names, lowered. rewrite map_map. apply map_ext_in.
  intros [k v] Hin. specialize (Hne (k, v) Hin). simpl in Hne |- *.
  destruct (String.eqb_spec (toLowerCase k) "") as [He|]; [|done].
  destruct (Hne (proj1 (toLowerCase_empty k) He)).
Qed.

Lemma upsert_node_ok_nonempty E S (F : FieldUpdates) c c' :
  (forall kv, In kv F -> kv.1 <> "") ->
  upsert_node E S F c = (c', None) -> c' = upsert_named E S (lowered F) c.
Proof. intros Hne Hrun. rewrite <- (resolve_names_nonempty c F Hne). by apply upsert_node_ok. Qed.

(** The empty key keeps standing for the same name after the loop. *)
Lemma first_name_upsert_named E S c (N : list (string * string)) :
  first_name (upsert_named E S (resolve_names c N) c) N = first_name c N.
Proof.
  destruct (comp_props c) as [|p ps] eqn:Hps.
  - destruct N as [|[n v] N].
    + unfold first_name. simpl. by rewrite Hps.
    + unfold resolve_names. cbn [map]. rewrite upsert_named_cons.
      assert (Hfn : first_name c ((n, v) :: N) = n) by (unfold first_name; by rewrite Hps).
      rewrite Hfn. replace (if String.eqb n "" then n else n) with n by (by destruct (String.eqb _ _)).
      assert (Hp1 : comp_props (upd_named E S n v c) = [added_prop E S n v]).
      { unfold upd_named, find_prop. by rewrite Hps. }
      destruct (upsert_named_head E S (map (fun '(m, w) => (if String.eqb m "" then n else m, w)) N)
                  _ _ _ Hp1) as (p' & ps' & Hps' & Hn').
      unfold first_name. rewrite Hps'. by rewrite Hn', added_prop_name.
  - destruct (upsert_named_head E S (resolve_names c N) c p ps Hps) as (p' & ps' & Hps' & Hn').
    unfold first_name. by rewrite Hps', Hps.
Qed.

Lemma resolve_names_upsert_named E S c (N : list (string * string)) :
  resolve_names (upsert_named E S (resolve_names c N) c) N = resolve_names c N.
Proof. unfold resolve_names at 1. rewrite first_name_upsert_named. reflexivity. Qed.

(** ** The loop on names: frame and last write *)

(** A property that is not touched stays in the filtered view. *)
Lemma filter_alter_drop {A} (P : A -> bool) (f : A -> A) (l : list A) i x :
  l !! i = Some x -> P x = false -> P (f x) = false ->
  List.filter P (alter f i l) = List.filter P l.
Proof.
  revert i; induction l as [|y l IH]; intros [|i] Hx HP HPf; simpl in *; try done.
  - injection Hx as ->. by rewrite HP, HPf.
  - destruct (P y); [f_equal|]; by apply IH.
Qed.

Lemma upd_named_filter E S n v c (P : prop -> bool) :
  (forall p, prop_name p = n -> P p = false) ->
  List.filter P (comp_props (upd_named E S n v c)) = List.filter P (comp_props c).
Proof.
  intros HP. unfold upd_named.
  destruct (find_prop n c) as [i|] eqn:Hi; simpl.
  - destruct (find_prop_Some _ _ _ Hi) as (p & Hp & Hn & _).
    apply (filter_alter_drop _ _ _ _ p); [done|by apply HP|by apply HP].
  - rewrite List.filter_app. simpl. rewrite (HP _ (added_prop_name E S n v)). by rewrite app_nil_r.
Qed.

Lemma upsert_named_filter E S (N : list (string * string)) c (P : prop -> bool) :
  (forall n v, In (n, v) N -> forall p, prop_name p = n -> P p = false) ->
  List.filter P (comp_props (upsert_named E S N c)) = List.filter P (comp_props c).
Proof.
  revert c; induction N as [|[n v] N IH]; intros c HP; [done|].
  rewrite upsert_named_cons, IH.
  - apply upd_named_filter. intros p Hp. apply (HP n v); [by left|done].
  - intros n' v' Hin. apply (HP n' v'). by right.
Qed.

Lemma keep_false (F : FieldUpdates) k v p :
  In (k, v) F -> prop_name p = toLowerCase k -> keep F p = false.
Proof.
  intros Hin Hn. unfold keep. destruct (forallb _ F) eqn:Hall; [|done].
  rewrite forallb_forall in Hall. specialize (Hall (k, v) Hin). simpl in Hall.
  rewrite Hn, toLowerCase_idem, String.eqb_refl in Hall. done.
Qed.

Lemma in_lowered (F : FieldUpdates) n v :
  In (n, v) (lowered F) -> exists k, In (k, v) F /\ n = toLowerCase k.
Proof.
  unfold lowered. intros ([k w] & Heq & Hin)%in_map_iff. injection Heq as <- <-. by exists k.
Qed.

Lemma keep_preserved E S (F : FieldUpdates) c :
  List.filter (keep F) (comp_props (upsert_named E S (lowered F) c)) = List.filter (keep F) (comp_props c).
Proof.
  apply upsert_named_filter. intros n v (k & Hk & ->)%in_lowered p Hn. by apply (keep_false F k v).
Qed.

(** The first property of name [n] keeps its place (and, when the update
    is about another name, stays as it is). *)
Lemma upd_first_kept E S m v n c j p :
  find_prop n c = Some j -> comp_props c !! j = Some p ->
  find_prop n (upd_named E S m v c) = Some j /\
  exists p', comp_props (upd_named E S m v c) !! j = Some p' /\
    prop_name p' = prop_name p /\ prop_params p' = prop_params p /\
    prop_type p' = prop_type p /\ (m <> n -> p' = p).
Proof.
  intros Hj Hp. unfold upd_named.
  destruct (find_prop m c) as [i|] eqn:Hi; simpl.
  - split.
    + unfold find_prop in *. simpl. by rewrite first_index_alter.
    + rewrite list_lookup_alter. case_decide as Hij.
      * subst i. rewrite Hp. simpl. exists (assign v p). split_and!; try done.
        intros Hmn. destruct (find_prop_Some _ _ _ Hi) as (q & Hq & Hqn & _).
        destruct (find_prop_Some _ _ _ Hj) as (q' & Hq' & Hqn' & _).
        congruence.
      * exists p. by split_and!.
  - pose proof (lookup_lt_Some _ _ _ Hp) as Hlt. split.
    + unfold find_prop in *. simpl. rewrite first_index_app. by rewrite Hj.
    + exists p. split_and!; try done. by apply lookup_app_l_Some.
Qed.

(** An update of name [n] leaves [v] as the only value of the first [n]. *)
Lemma upd_first_hit E S n v c :
  exists j p', find_prop n (upd_named E S n v c) = Some j /\
    comp_props (upd_named E S n v c) !! j = Some p' /\
    prop_name p' = n /\ prop_values p' = [JStr v] /\
    match find_prop n c with
    | Some j0 => j = j0 /\ exists p0, comp_props c !! j0 = Some p0 /\
        prop_params p' = prop_params p0 /\ prop_type p' = prop_type p0
    | None => j = length (comp_props c)
    end.
Proof.
  unfold upd_named.
  destruct (find_prop n c) as [j0|] eqn:Hj.
  - destruct (find_prop_Some _ _ _ Hj) as (p0 & Hp0 & Hn & _).
    exists j0, (assign v p0). simpl. split_and!.
    + unfold find_prop in *. simpl. by rewrite first_index_alter.
    + by rewrite list_lookup_alter_eq, Hp0.
    + done.
    + done.
    + done.
    + exists p0. by split_and!.
  - exists (length (comp_props c)), (added_prop E S n v). simpl. split_and!.
    + unfold find_prop in *. simpl. rewrite first_index_app, Hj. simpl.
      rewrite added_prop_name, String.eqb_refl. simpl. f_equal. lia.
    + by apply list_lookup_middle.
    + apply added_prop_name.
    + apply added_prop_values.
    + done.
Qed.

Lemma upd_first_none E S m v n c :
  find_prop n c = None -> m <> n -> find_prop n (upd_named E S m v c) = None.
Proof.
  intros Hn Hmn. unfold upd_named.
  destruct (find_prop m c) as [i|] eqn:Hi; unfold find_prop in *; simpl.
  - by rewrite first_index_alter.
  - rewrite first_index_app, Hn. simpl. rewrite added_prop_name.
    destruct (String.eqb_spec m n); [done|]. done.
Qed.

(** Updates before the last one of a name keep the first property of that
    name at its place, with its parameters and type; a property created by
    them lies behind the original ones. *)
Lemma upsert_named_prefix E S n (N1 : list (string * string)) c :
  (length (comp_props c) <= length (comp_props (upsert_named E S N1 c)))%nat /\
  match find_prop n c with
  | Some j0 => forall p0, comp_props c !! j0 = Some p0 ->
      find_prop n (upsert_named E S N1 c) = Some j0 /\
      exists p1, comp_props (upsert_named E S N1 c) !! j0 = Some p1 /\
        prop_params p1 = prop_params p0 /\ prop_type p1 = prop_type p0
  | None => find_prop n (upsert_named E S N1 c) = None \/
      exists j, find_prop n (upsert_named E S N1 c) = Some j /\
        (length (comp_props c) <= j)%nat
  end.
Proof.
  induction N1 as [|nv N1 IH] using rev_ind.
  - split; [done|]. change (upsert_named E S [] c) with c.
    destruct (find_prop n c); [|by left].
    intros p0 Hp0. split; [done|]. by exists p0.
  - destruct nv as [m v]. rewrite upsert_named_snoc. destruct IH as [Hlen IH].
    set (c1 := upsert_named E S N1 c) in *.
    split; [pose proof (upd_named_length E S m v c1); lia|].
    destruct (find_prop n c) as [j0|] eqn:Hc.
    + intros p0 Hp0. destruct (IH p0 Hp0) as (Hj1 & p1 & Hp1 & Hpar & Hty).
      destruct (upd_first_kept E S m v n c1 j0 p1 Hj1 Hp1)
        as (Hj2 & p2 & Hp2 & _ & Hpar2 & Hty2 & _).
      split; [done|]. exists p2. split_and!; congruence.
    + destruct IH as [Hnone | (j & Hj & Hle)].
      * destruct (String.eqb_spec m n) as [<-|Hne].
        -- right. destruct (upd_first_hit E S m v c1) as (j & p' & Hj & _ & _ & _ & Hrel).
           rewrite Hnone in Hrel. exists j. split; [done|]. lia.
        -- left. by apply upd_first_none.
      * right. destruct (find_prop_Some _ _ _ Hj) as (p & Hp & _).
        destruct (upd_first_kept E S m v n c1 j p Hj Hp) as (Hj2 & _).
        by exists j.
Qed.

(** Updates of other names leave the first property of name [n] alone. *)
Lemma upsert_named_suffix E S n (N2 : list (string * string)) c j p :
  (forall mv, In mv N2 -> mv.1 <> n) ->
  find_prop n c = Some j -> comp_props c !! j = Some p ->
  find_prop n (upsert_named E S N2 c) = Some j /\ comp_props (upsert_named E S N2 c) !! j = Some p.
Proof.
  revert c; induction N2 as [|[m v] N2 IH]; intros c Hne Hj Hp; [done|].
  rewrite upsert_named_cons.
  destruct (upd_first_kept E S m v n c j p Hj Hp) as (Hj' & p' & Hp' & _ & _ & _ & Heq).
  rewrite Heq in Hp' by (apply (Hne (m, v)); by left).
  apply IH; [|done|done]. intros mv Hmv. apply Hne. by right.
Qed.

(** The last pair of a name decides that property's value. *)
Lemma upsert_named_last_wins E S (N1 : list (string * string)) n v (N2 : list (string * string)) c :
  (forall mv, In mv N2 -> mv.1 <> n) ->
  exists j p,
    find_prop n (upsert_named E S (N1 ++ (n, v) :: N2) c) = Some j /\
    comp_props (upsert_named E S (N1 ++ (n, v) :: N2) c) !! j = Some p /\
    prop_name p = n /\ prop_values p = [JStr v] /\
    match find_prop n c with
    | Some j0 => j = j0 /\ exists p0, comp_props c !! j0 = Some p0 /\
        prop_params p = prop_params p0 /\ prop_type p = prop_type p0
    | None => (length (comp_props c) <= j)%nat
    end.
Proof.
  intros Hne. rewrite upsert_named_app, upsert_named_cons.
  destruct (upsert_named_prefix E S n N1 c) as [Hlen Hpre].
  set (c1 := upsert_named E S N1 c) in *.
  destruct (upd_first_hit E S n v c1) as (j & p & Hj & Hp & Hname & Hval & Hrel).
  destruct (upsert_named_suffix E S n N2 _ j p Hne Hj Hp) as [Hj' Hp'].
  exists j, p. split_and!; try done.
  destruct (find_prop n c) as [j0|] eqn:Hc.
  - destruct (find_prop_Some _ _ _ Hc) as (p0 & Hp0 & _).
    destruct (Hpre p0 Hp0) as (Hj1 & p1 & Hp1 & Hpar & Hty).
    rewrite Hj1 in Hrel. destruct Hrel as (-> & p1' & Hp1' & Hpar' & Hty').
    rewrite Hp1 in Hp1'. injection Hp1' as <-.
    split; [done|]. exists p0. split_and!; congruence.
  - destruct Hpre as [Hnone | (j1 & Hj1 & Hle)].
    + rewrite Hnone in Hrel. lia.
    + rewrite Hj1 in Hrel. by destruct Hrel as (-> & _).
Qed.

(** ** Counting properties of one name *)

Lemma filter_alter_same {A} (P : A -> bool) (f : A -> A) (l : list A) i :
  (forall x, P (f x) = P x) -> length (List.filter P (alter f i l)) = length (List.filter P l).
Proof.
  intros Hf. revert i; induction l as [|x l IH]; intros [|i]; simpl; try done.
  - rewrite Hf. by destruct (P x).
  - destruct (P x); simpl; [f_equal|]; apply IH.
Qed.

Lemma filter_lookup_pos {A} (P : A -> bool) (l : list A) i x :
  l !! i = Some x -> P x = true -> (1 <= length (List.filter P l))%nat.
Proof.
  revert i; induction l as [|y l IH]; intros [|i] Hx HP; simpl in *; try done.
  - injection Hx as ->. rewrite HP. simpl. lia.
  - destruct (P y); simpl; [lia|]. by apply (IH i).
Qed.

Lemma filter_first_index_None {A} (P : A -> bool) (l : list A) :
  first_index P l = None -> List.filter P l = [].
Proof.
  intros H. apply first_index_None in H.
  induction l as [|x l IH]; simpl in *; [done|].
  apply orb_false_iff in H as [-> H]. by apply IH.
Qed.

Lemma upd_named_count E S m v n c :
  count_named n (upd_named E S m v c) =
  if String.eqb m n then Nat.max 1 (count_named n c) else count_named n c.
Proof.
  unfold count_named, upd_named.
  destruct (find_prop m c) as [i|] eqn:Hi; simpl.
  - rewrite filter_alter_same by done.
    destruct (String.eqb_spec m n) as [<-|]; [|done].
    destruct (find_prop_Some _ _ _ Hi) as (p & Hp & Hn & _).
    assert (1 <= length (List.filter (fun p => String.eqb (prop_name p) m) (comp_props c)))%nat.
    { apply (filter_lookup_pos _ _ i p Hp). by rewrite Hn, String.eqb_refl. }
    lia.
  - rewrite List.filter_app, length_app. simpl. rewrite added_prop_name.
    destruct (String.eqb_spec m n) as [<-|]; simpl.
    + unfold find_prop in Hi. rewrite (filter_first_index_None _ _ Hi). done.
    + lia.
Qed.

Lemma upsert_named_count E S n (N : list (string * string)) c :
  count_named n (upsert_named E S N c) =
  if existsb (fun '(m, _) => String.eqb m n) N then Nat.max 1 (count_named n c) else count_named n c.
Proof.
  revert c; induction N as [|[m v] N IH]; intros c; [done|].
  rewrite upsert_named_cons, IH, upd_named_count. cbn [existsb].
  destruct (String.eqb m n); simpl; destruct (existsb _ N); lia.
Qed.

(** ** The loop in closed form *)

Lemma last_value_snoc (N : list (string * string)) m v n :
  last_value (N ++ [(m, v)]) n = if String.eqb m n then Some v else last_value N n.
Proof. unfold last_value. by rewrite fold_left_app. Qed.

Lemma new_names_snoc (N : list (string * string)) m v c :
  new_names (N ++ [(m, v)]) c =
  if has_prop m (comp_props c) || existsb (String.eqb m) (new_names N c)
  then new_names N c else (new_names N c ++ [m])%list.
Proof. unfold new_names. by rewrite fold_left_app. Qed.

Lemma new_names_absent (N : list (string * string)) c n :
  In n (new_names N c) -> has_prop n (comp_props c) = false.
Proof.
  induction N as [|[m v] N IH] using rev_ind; [done|].
  rewrite new_names_snoc.
  destruct (has_prop m _ || _) eqn:Hc; [done|].
  apply orb_false_iff in Hc as [Hc _].
  intros [Hin | [<- | []]]%in_app_or; [by apply IH|done].
Qed.

Lemma new_names_NoDup (N : list (string * string)) c : NoDup (new_names N c).
Proof.
  induction N as [|[m v] N IH] using rev_ind; [constructor|].
  rewrite new_names_snoc.
  destruct (has_prop m _ || _) eqn:Hc; [done|].
  apply orb_false_iff in Hc as [_ Hc].
  apply NoDup_app. split_and!; [done| |by apply NoDup_singleton].
  intros x Hx ->%list_elem_of_singleton.
  assert (existsb (String.eqb m) (new_names N c) = true) as Ht.
  { apply existsb_exists. exists m. split; [by apply list_elem_of_In|apply String.eqb_refl]. }
  congruence.
Qed.

Lemma new_names_cover (N : list (string * string)) c mv :
  In mv N -> has_prop mv.1 (comp_props c) = true \/ In mv.1 (new_names N c).
Proof.
  induction N as [|[m v] N IH] using rev_ind; [done|].
  intros [Hin | [<- | []]]%in_app_or; rewrite new_names_snoc.
  - destruct (IH Hin) as [Hp | Hn]; [by left|right].
    destruct (_ || _); [done|]. apply in_or_app. by left.
  - simpl. destruct (has_prop m _) eqn:Hp; [by left|right]. simpl.
    destruct (existsb (String.eqb m) (new_names N c)) eqn:He.
    + apply existsb_exists in He as (x & Hx & Heq). apply String.eqb_eq in Heq. by subst.
    + apply in_or_app. right. by left.
Qed.

Lemma new_names_all_present (N : list (string * string)) c :
  (forall mv, In mv N -> has_prop mv.1 (comp_props c) = true) -> new_names N c = [].
Proof.
  induction N as [|[m v] N IH] using rev_ind; intros Hall; [done|].
  rewrite new_names_snoc, IH.
  - pose proof (Hall (m, v) ltac:(apply in_or_app; right; by left)) as Hk.
    simpl in Hk. by rewrite Hk.
  - intros mv Hmv. apply Hall. apply in_or_app. by left.
Qed.

Lemma new_names_from_pairs (N : list (string * string)) c n :
  In n (new_names N c) -> exists v, In (n, v) N.
Proof.
  induction N as [|[m v] N IH] using rev_ind; [done|].
  rewrite new_names_snoc. intros Hin.
  assert (In n (new_names N c) \/ n = m) as [Hn | ->].
  { destruct (_ || _); [by left|]. apply in_app_or in Hin as [Hin | [<- | []]]; [by left|by right]. }
  - destruct (IH Hn) as (w & Hw). exists w. apply in_or_app. by left.
  - exists v. apply in_or_app. right. by left.
Qed.

Lemma mark_first_names (N : list (string * string)) seen ps :
  map prop_name (mark_first N seen ps) = map prop_name ps.
Proof.
  revert seen; induction ps as [|p ps IH]; intros seen; simpl; [done|].
  f_equal; [|apply IH].
  destruct (existsb _ seen); [done|]. by destruct (last_value N (prop_name p)).
Qed.

Lemma mark_first_ext (N N' : list (string * string)) seen ps :
  (forall p, In p ps -> existsb (String.eqb (prop_name p)) seen = false ->
     last_value N (prop_name p) = last_value N' (prop_name p)) ->
  mark_first N seen ps = mark_first N' seen ps.
Proof.
  revert seen; induction ps as [|p ps IH]; intros seen Hagree; simpl; [done|].
  f_equal.
  - destruct (existsb _ seen) eqn:Hs; [done|]. rewrite (Hagree p); [done|by left|done].
  - apply IH. intros q Hq Hs. apply Hagree; [by right|].
    simpl in Hs. by apply orb_false_iff in Hs as [_ Hs].
Qed.

(** The update of a name present among [ps]. *)
Lemma mark_first_alter (N : list (string * string)) m v seen ps j :
  existsb (String.eqb m) seen = false ->
  first_index (fun p => String.eqb (prop_name p) m) ps = Some j ->
  alter (assign v) j (mark_first N seen ps) = mark_first (N ++ [(m, v)]) seen ps.
Proof.
  revert seen j; induction ps as [|p ps IH]; intros seen j Hseen Hj; simpl in Hj; [done|].
  destruct (String.eqb_spec (prop_name p) m) as [Hpn|Hpn].
  - injection Hj as <-. simpl. rewrite Hpn, Hseen, last_value_snoc, String.eqb_refl.
    f_equal.
    + by destruct (last_value N m).
    + apply mark_first_ext. intros q _ Hq. rewrite last_value_snoc.
      destruct (String.eqb_spec m (prop_name q)) as [He|]; [|done].
      simpl in Hq. rewrite He, String.eqb_refl in Hq. done.
  - destruct (first_index _ ps) as [j'|] eqn:Hj'; simpl in Hj; [|done]. injection Hj as <-.
    simpl. f_equal.
    + destruct (existsb _ seen); [done|]. rewrite last_value_snoc.
      destruct (String.eqb_spec m (prop_name p)); [congruence|done].
    + apply IH; [|done]. simpl.
      destruct (String.eqb_spec m (prop_name p)); [congruence|done].
Qed.

Lemma mark_first_absent (N : list (string * string)) m v seen ps :
  has_prop m ps = false ->
  mark_first (N ++ [(m, v)]) seen ps = mark_first N seen ps.
Proof.
  intros Habs. apply mark_first_ext. intros p Hp _. rewrite last_value_snoc.
  destruct (String.eqb_spec m (prop_name p)) as [He|]; [|done].
  assert (has_prop m ps = true); [|congruence].
  apply existsb_exists. exists p. split; [done|]. by rewrite He, String.eqb_refl.
Qed.

Lemma new_prop_name E S (N : list (string * string)) n : prop_name (new_prop E S N n) = n.
Proof.
  unfold new_prop. destruct (last_value N n); [apply added_prop_name|apply set_parent_name].
Qed.

Lemma assign_new_prop E S (N : list (string * string)) n v :
  assign v (new_prop E S N n) = added_prop E S n v.
Proof. unfold new_prop, added_prop. by destruct (last_value N n); rewrite assign_set_parent. Qed.

Lemma map_new_prop_other E S (N : list (string * string)) m v nn :
  ~ In m nn -> map (new_prop E S (N ++ [(m, v)])) nn = map (new_prop E S N) nn.
Proof.
  intros Hn. apply map_ext_in. intros n Hm. unfold new_prop. rewrite last_value_snoc.
  destruct (String.eqb_spec m n) as [He|]; [subst n; contradiction|done].
Qed.

Lemma map_new_prop_alter E S (N : list (string * string)) m v nn q :
  NoDup nn -> first_index (fun n => String.eqb n m) nn = Some q ->
  alter (assign v) q (map (new_prop E S N) nn) = map (new_prop E S (N ++ [(m, v)])) nn.
Proof.
  revert q; induction nn as [|n nn IH]; intros q Hnd Hq; simpl in Hq; [done|].
  apply NoDup_cons in Hnd as [Hm Hnd].
  destruct (String.eqb_spec n m) as [->|Hne].
  - injection Hq as <-. simpl. f_equal.
    + rewrite assign_new_prop. unfold new_prop. by rewrite last_value_snoc, String.eqb_refl.
    + symmetry. apply map_new_prop_other. by rewrite <- list_elem_of_In.
  - destruct (first_index _ nn) as [q'|] eqn:Hq'; simpl in Hq; [|done]. injection Hq as <-.
    simpl. f_equal; [|by apply IH].
    unfold new_prop. rewrite last_value_snoc.
    destruct (String.eqb_spec m n); [congruence|done].
Qed.

Lemma mark_first_nil seen ps : mark_first [] seen ps = ps.
Proof.
  revert seen; induction ps as [|p ps IH]; intros seen; simpl; [done|].
  rewrite IH. by destruct (existsb _ seen).
Qed.

(** The loop on names is [upsert_result]. *)
Lemma upsert_named_closed_form E S (N : list (string * string)) c :
  upsert_named E S N c = upsert_result E S N c.
Proof.
  induction N as [|[m v] N IH] using rev_ind.
  - unfold upsert_result. simpl. rewrite mark_first_nil, app_nil_r. by destruct c.
  - rewrite upsert_named_snoc, IH. unfold upsert_result, upd_named, find_prop.
    cbn [comp_props comp_name comp_subs].
    rewrite first_index_app, new_names_snoc.
    rewrite (first_index_names _ _ (comp_props c)) by apply mark_first_names.
    destruct (first_index (fun p => String.eqb (prop_name p) m) (comp_props c)) as [j|] eqn:Hj.
    + assert (has_prop m (comp_props c) = true) as Hp.
      { destruct (has_prop _ _) eqn:Hp; [done|]. apply has_prop_first_index in Hp. congruence. }
      rewrite Hp. simpl. f_equal.
      destruct (first_index_Some _ _ _ Hj) as (p & Hpj & _).
      rewrite alter_app_l.
      2:{ rewrite <- (length_map prop_name), mark_first_names, length_map.
          by apply lookup_lt_Some in Hpj. }
      rewrite (mark_first_alter N m v [] _ j) by done. f_equal.
      symmetry. apply map_new_prop_other. intros Hin.
      apply new_names_absent in Hin. congruence.
    + assert (has_prop m (comp_props c) = false) as Hp by by apply has_prop_first_index.
      rewrite Hp. simpl.
      rewrite first_index_map.
      erewrite (first_index_ext _ (fun n => String.eqb n m));
        [|intros n; by rewrite new_prop_name].
      rewrite (mark_first_absent N m v [] _ Hp).
      destruct (first_index (fun n => String.eqb n m) (new_names N c)) as [q|] eqn:Hq.
      * assert (existsb (String.eqb m) (new_names N c) = true) as He.
        { destruct (first_index_Some _ _ _ Hq) as (n & Hn & Heq & _).
          apply existsb_exists. exists n. split; [by eapply list_elem_of_In, list_elem_of_lookup_2|].
          apply String.eqb_eq in Heq. subst. apply String.eqb_refl. }
        rewrite He. simpl. f_equal.
        rewrite alter_app_r. f_equal.
        apply map_new_prop_alter; [apply new_names_NoDup|done].
      * assert (existsb (String.eqb m) (new_names N c) = false) as He.
        { destruct (existsb _ _) eqn:He; [|done].
          apply existsb_exists in He as (n & Hn & Heq). apply String.eqb_eq in Heq. subst n.
          apply first_index_None in Hq.
          assert (existsb (fun n => String.eqb n m) (new_names N c) = true); [|congruence].
          apply existsb_exists. exists m. split; [done|apply String.eqb_refl]. }
        rewrite He. simpl. f_equal.
        rewrite map_app, map_new_prop_other.
        2:{ intros Hin. apply first_index_None in Hq.
            assert (existsb (fun n => String.eqb n m) (new_names N c) = true); [|congruence].
            apply existsb_exists. exists m. split; [done|apply String.eqb_refl]. }
        simpl. rewrite <- app_assoc. do 2 f_equal.
        unfold new_prop. by rewrite last_value_snoc, String.eqb_refl.
Qed.

Lemma mark_first_app (N : list (string * string)) seen l1 l2 :
  mark_first N seen (l1 ++ l2) =
  (mark_first N seen l1 ++ mark_first N (rev (map prop_name l1) ++ seen) l2)%list.
Proof.
  revert seen; induction l1 as [|p l1 IH]; intros seen; simpl; [done|].
  f_equal. rewrite IH. f_equal. by rewrite <- app_assoc.
Qed.

Lemma mark_first_idem (N : list (string * string)) seen ps :
  mark_first N seen (mark_first N seen ps) = mark_first N seen ps.
Proof.
  revert seen; induction ps as [|p ps IH]; intros seen; simpl; [done|].
  destruct (existsb (String.eqb (prop_name p)) seen) eqn:Hs.
  - simpl. rewrite Hs. f_equal. apply IH.
  - destruct (last_value N (prop_name p)) as [v|] eqn:Hv; simpl; rewrite Hs, Hv; f_equal; apply IH.
Qed.

Lemma mark_first_new_props E S (N : list (string * string)) seen nn :
  mark_first N seen (map (new_prop E S N) nn) = map (new_prop E S N) nn.
Proof.
  revert seen; induction nn as [|m nn IH]; intros seen; simpl; [done|].
  f_equal; [|apply IH].
  destruct (existsb _ seen); [done|]. rewrite new_prop_name.
  destruct (last_value N m) as [v|] eqn:Hv; [|done].
  rewrite assign_new_prop. unfold new_prop. by rewrite Hv.
Qed.

(** Running the loop a second time with the same pairs changes nothing. *)
Lemma upsert_named_idem E S (N : list (string * string)) c :
  upsert_named E S N (upsert_named E S N c) = upsert_named E S N c.
Proof.
  rewrite !upsert_named_closed_form.
  set (d := upsert_result E S N c).
  assert (new_names N d = []) as Hnil.
  { apply new_names_all_present. intros mv Hmv. subst d. unfold upsert_result, has_prop. simpl.
    rewrite existsb_app. apply orb_true_iff.
    destruct (new_names_cover N c mv Hmv) as [Hp | Hin].
    - left. change (has_prop mv.1 (mark_first N [] (comp_props c)) = true).
      by rewrite (has_prop_names _ _ (comp_props c)) by apply mark_first_names.
    - right. apply existsb_exists. exists (new_prop E S N mv.1).
      split; [by apply in_map|]. by rewrite new_prop_name, String.eqb_refl. }
  unfold upsert_result at 1. rewrite Hnil. simpl. rewrite app_nil_r.
  subst d. unfold upsert_result. simpl.
  by rewrite mark_first_app, mark_first_idem, mark_first_new_props.
Qed.

(** ** Values of a name *)

Lemma last_value_Some (N : list (string * string)) n v :
  last_value N n = Some v -> In (n, v) N.
Proof.
  induction N as [|[m w] N IH] using rev_ind; [done|].
  rewrite last_value_snoc. destruct (String.eqb_spec m n) as [<-|_].
  - intros [= <-]. apply in_or_app. right. by left.
  - intros Hv. apply in_or_app. left. by apply IH.
Qed.

Lemma last_value_None (N : list (string * string)) n :
  last_value N n = None -> forall mv, In mv N -> mv.1 <> n.
Proof.
  induction N as [|[m w] N IH] using rev_ind; [done|].
  rewrite last_value_snoc. destruct (String.eqb_spec m n) as [He|Hne]; [done|].
  intros Hv mv [Hin | [<- | []]]%in_app_or; [by apply IH|done].
Qed.

Lemma last_value_in (N : list (string * string)) n v :
  In (n, v) N -> exists v', last_value N n = Some v'.
Proof.
  intros Hin. destruct (last_value N n) as [v'|] eqn:Hv; [by exists v'|].
  by destruct (last_value_None N _ Hv (n, v) Hin).
Qed.

(** With names pairwise distinct, each name has one value. *)
Lemma last_value_unique (N : list (string * string)) n v :
  NoDup (map fst N) -> In (n, v) N -> last_value N n = Some v.
Proof.
  intros Hnd Hin. destruct (last_value_in N n v Hin) as [v' Hv'].
  pose proof (last_value_Some N _ _ Hv') as Hin'.
  assert (v' = v) as ->; [|done].
  revert Hnd Hin Hin'. clear.
  induction N as [|[m w] N IH]; intros Hnd Hin Hin'; [done|].
  simpl in Hnd. apply NoDup_cons in Hnd as [Hn Hnd].
  destruct Hin as [Hin | Hin], Hin' as [Hin' | Hin'].
  - congruence.
  - exfalso. injection Hin as -> ->. apply Hn. apply list_elem_of_In.
    by apply (in_map fst N (n, v')).
  - exfalso. injection Hin' as -> ->. apply Hn. apply list_elem_of_In.
    by apply (in_map fst N (n, v)).
  - by apply IH.
Qed.

Lemma last_value_perm (N N' : list (string * string)) n :
  Permutation N N' -> NoDup (map fst N) -> last_value N n = last_value N' n.
Proof.
  intros Hp Hnd.
  assert (NoDup (map fst N')) as Hnd'.
  { assert (map fst N ≡ₚ map fst N') as Hm by (by apply Permutation_map). by rewrite <- Hm. }
  destruct (last_value N n) as [v|] eqn:Hv.
  - pose proof (last_value_Some N n v Hv) as Hin.
    symmetry. apply last_value_unique; [done|]. by rewrite <- Hp.
  - destruct (last_value N' n) as [v'|] eqn:Hv'; [|done].
    pose proof (last_value_Some N' n v' Hv') as Hin.
    rewrite (last_value_unique N n v') in Hv; [done|done|]. by rewrite Hp.
Qed.

(** ** Runs whose values the engine accepts *)

Lemma lookup_same_map {A B} (f : A -> B) (l l' : list A) i x :
  map f l = map f l' -> l !! i = Some x -> exists x', l' !! i = Some x' /\ f x' = f x.
Proof.
  revert l' i; induction l as [|y l IH]; intros [|y' l'] [|i] Hm Hx; simpl in *; try done.
  - injection Hx as ->. injection Hm as Hy _. by exists y'.
  - injection Hm as _ Hm. by apply IH.
Qed.

(** The first property of name [n] in [c] accepts the value [v]. *)
Lemma accepted_transfer E S c c1 n v :
  map prop_name (comp_props c1) = map prop_name (comp_props c) ->
  map prop_type (comp_props c1) = map prop_type (comp_props c) ->
  (exists i p, find_prop n c1 = Some i /\ comp_props c1 !! i = Some p /\ decorate E S (prop_type p) v = None) ->
  exists i p, find_prop n c = Some i /\ comp_props c !! i = Some p /\ decorate E S (prop_type p) v = None.
Proof.
  intros Hn Ht (i & p & Hi & Hp & Hd).
  destruct (lookup_same_map prop_type _ _ i p Ht Hp) as (p' & Hp' & Hty).
  exists i, p'. split_and!; [|done|by rewrite Hty].
  unfold find_prop in *. by rewrite <- (first_index_names n _ _ Hn).
Qed.

Lemma accepted_upd_named E S m w c n v :
  (exists i p, find_prop n c = Some i /\ comp_props c !! i = Some p /\ decorate E S (prop_type p) v = None) ->
  exists i p, find_prop n (upd_named E S m w c) = Some i /\
    comp_props (upd_named E S m w c) !! i = Some p /\ decorate E S (prop_type p) v = None.
Proof.
  intros (i & p & Hi & Hp & Hd).
  destruct (upd_first_kept E S m w n c i p Hi Hp) as (Hi' & p' & Hp' & _ & _ & Hty & _).
  exists i, p'. split_and!; [done|done|by rewrite Hty].
Qed.

(** [getFirstProperty] looks up the resolved name. *)
Lemma getFirstProperty_resolved n c hd :
  (comp_props c = [] -> hd = n) -> (forall p ps, comp_props c = p :: ps -> hd = prop_name p) ->
  getFirstProperty n c = find_prop (if String.eqb n "" then hd else n) c.
Proof.
  intros Hnil Hcons. unfold getFirstProperty.
  destruct (String.eqb_spec n "") as [->|]; [|done].
  unfold find_prop. destruct (comp_props c) as [|q qs] eqn:Hps; [done|].
  rewrite (Hcons q qs eq_refl). simpl. by rewrite String.eqb_refl.
Qed.

Lemma resolved_absent n c hd :
  (comp_props c = [] -> hd = n) -> (forall p ps, comp_props c = p :: ps -> hd = prop_name p) ->
  find_prop (if String.eqb n "" then hd else n) c = None -> (if String.eqb n "" then hd else n) = n.
Proof.
  intros Hnil Hcons Hf.
  destruct (String.eqb_spec n "") as [->|]; [|done].
  destruct (comp_props c) as [|q qs] eqn:Hps; [by apply Hnil|].
  rewrite (Hcons q qs eq_refl) in Hf. unfold find_prop in Hf. rewrite Hps in Hf.
  simpl in Hf. by rewrite String.eqb_refl in Hf.
Qed.

Lemma upd_ok_some E S n v c c1 :
  updatePropertyWithValue E S n v c = (c1, None) -> exists x, c1 = upd_named E S x v c.
Proof.
  intros Hu.
  set (hd := match comp_props c with q :: _ => prop_name q | [] => n end).
  exists (if String.eqb n "" then hd else n). apply (upd_ok E S n v c c1 hd); [| |done].
  - intros Hps. subst hd. by rewrite Hps.
  - intros q qs Hps. subst hd. by rewrite Hps.
Qed.

Lemma accepted_upsert_node E S (F : FieldUpdates) c c' n v :
  upsert_node E S F c = (c', None) ->
  (exists i p, find_prop n c = Some i /\ comp_props c !! i = Some p /\ decorate E S (prop_type p) v = None) ->
  exists i p, find_prop n c' = Some i /\ comp_props c' !! i = Some p /\ decorate E S (prop_type p) v = None.
Proof.
  revert c; induction F as [|[k w] F IH]; intros c Hrun Hacc; [by injection Hrun as <-|].
  rewrite upsert_node_cons in Hrun.
  destruct (updatePropertyWithValue E S (toLowerCase k) w c) as [c1 [m|]] eqn:Hu; [done|].
  apply (IH c1 Hrun). destruct (upd_ok_some _ _ _ _ _ _ Hu) as [x ->].
  by apply accepted_upd_named.
Qed.

Section Decorators.
Variable E : Engine.
Variable S : string.
(** A value that the default set's type of a new property accepts is
    accepted after [addProperty] has retyped it for [S]. *)
Hypothesis Hdec : forall m w,
  decorate E (defaultSet E) (propertyDefaultType E (defaultSet E) m) w = None ->
  decorate E S (prop_type (set_parent E S (newProperty E m))) w = None.

Lemma upd_accepts n v c c' hd :
  (comp_props c = [] -> hd = n) ->
  (forall p ps, comp_props c = p :: ps -> hd = prop_name p) ->
  updatePropertyWithValue E S n v c = (c', None) ->
  exists i p, find_prop (if String.eqb n "" then hd else n) c' = Some i /\
    comp_props c' !! i = Some p /\ decorate E S (prop_type p) v = None.
Proof.
  intros Hnil Hcons Hrun.
  pose proof (upd_ok E S n v c c' hd Hnil Hcons Hrun) as Hc'.
  pose proof (getFirstProperty_resolved n c hd Hnil Hcons) as Hg.
  destruct (upd_first_hit E S (if String.eqb n "" then hd else n) v c)
    as (j & p' & Hj & Hp' & _ & _ & Hrel).
  rewrite <- Hc' in Hj, Hp'. exists j, p'. split_and!; [done|done|].
  destruct (find_prop (if String.eqb n "" then hd else n) c) as [j0|] eqn:Hf.
  - destruct Hrel as (-> & p0 & Hp0 & _ & Hty). rewrite Hty.
    unfold updatePropertyWithValue, setValue in Hrun. rewrite Hg, Hp0 in Hrun.
    by injection Hrun as _ ->.
  - pose proof (resolved_absent n c hd Hnil Hcons Hf) as Hnn.
    rewrite Hnn in Hf, Hc'. subst j. rewrite Hc' in Hp'. unfold upd_named in Hp'.
    rewrite Hf in Hp'. simpl in Hp'.
    rewrite list_lookup_middle in Hp' by done. injection Hp' as <-.
    rewrite added_prop_type. apply Hdec.
    unfold updatePropertyWithValue, setValue in Hrun. rewrite Hg in Hrun.
    destruct (decorate E (defaultSet E) (prop_type (newProperty E n)) v) as [m|] eqn:Hd;
      [done|]. exact Hd.
Qed.

Lemma upsert_node_accepts_head hd (F : FieldUpdates) :
  forall c c', (exists p ps, comp_props c = p :: ps /\ prop_name p = hd) ->
  upsert_node E S F c = (c', None) ->
  forall n v, In (n, v) (map (fun '(n, v) => (if String.eqb n "" then hd else n, v)) (lowered F)) ->
  exists i p, find_prop n c' = Some i /\ comp_props c' !! i = Some p /\ decorate E S (prop_type p) v = None.
Proof.
  induction F as [|[k v] F IH]; intros c c' Hhd Hrun n w Hin; [done|].
  rewrite upsert_node_cons in Hrun.
  destruct (updatePropertyWithValue E S (toLowerCase k) v c) as [c1 [m|]] eqn:Hu; [done|].
  destruct Hhd as (p & ps & Hps & Hp).
  assert (Hnil : comp_props c = [] -> hd = toLowerCase k) by (by rewrite Hps).
  assert (Hcons : forall q qs, comp_props c = q :: qs -> hd = prop_name q)
    by (intros q qs; rewrite Hps; intros [= <- _]; done).
  destruct Hin as [Heq | Hin].
  - injection Heq as <- <-. apply (accepted_upsert_node E S F c1 c' _ _ Hrun).
    by apply (upd_accepts (toLowerCase k) v c c1 hd).
  - apply (IH c1 c'); [|done|done].
    rewrite (upd_ok E S _ v c c1 hd Hnil Hcons Hu).
    destruct (upd_named_head E S (if String.eqb (toLowerCase k) "" then hd else toLowerCase k) v c p ps Hps)
      as (p' & ps' & Hps' & Hn'). exists p', ps'. split; [done|congruence].
Qed.

(** After a run that throws nothing, the first property of each name
    the loop looked up accepts that name's value. *)
Lemma upsert_node_accepts (F : FieldUpdates) c c' :
  upsert_node E S F c = (c', None) ->
  forall n v, In (n, v) (resolve_names c (lowered F)) ->
  exists i p, find_prop n c' = Some i /\ comp_props c' !! i = Some p /\ decorate E S (prop_type p) v = None.
Proof.
  destruct (comp_props c) as [|p ps] eqn:Hps.
  - destruct F as [|[k v] F]; [done|].
    rewrite upsert_node_cons.
    destruct (updatePropertyWithValue E S (toLowerCase k) v c) as [c1 [m|]] eqn:Hu; [done|].
    intros Hrest.
    assert (Hres : resolve_names c (lowered ((k, v) :: F)) =
      map (fun '(n, w) => (if String.eqb n "" then toLowerCase k else n, w)) (lowered ((k, v) :: F))).
    { unfold resolve_names, first_name. by rewrite Hps. }
    rewrite Hres. intros n w Hin.
    assert (Hnil : comp_props c = [] -> toLowerCase k = toLowerCase k) by done.
    assert (Hcons : forall q qs, comp_props c = q :: qs -> toLowerCase k = prop_name q) by (by rewrite Hps).
    destruct Hin as [Heq | Hin].
    + injection Heq as <- <-. apply (accepted_upsert_node E S F c1 c' _ _ Hrest).
      by apply (upd_accepts (toLowerCase k) v c c1 (toLowerCase k)).
    + apply (upsert_node_accepts_head (toLowerCase k) F c1 c'); [|done|done].
      rewrite (upd_ok E S _ v c c1 (toLowerCase k) Hnil Hcons Hu).
      replace (if String.eqb (toLowerCase k) "" then toLowerCase k else toLowerCase k) with (toLowerCase k)
        by (by destruct (String.eqb _ _)).
      unfold upd_named, find_prop. rewrite Hps. simpl.
      eexists _, []. split; [reflexivity|]. apply added_prop_name.
  - intros Hrun. unfold resolve_names, first_name. rewrite Hps.
    apply (upsert_node_accepts_head (prop_name p) F c c'); [by exists p, ps|done].
Qed.
End Decorators.

(** A run whose every looked-up name is present and whose every value is
    accepted throws nothing and is [upsert_named]. *)
Lemma upsert_node_present_head E S hd (F : FieldUpdates) :
  forall c, (exists p ps, comp_props c = p :: ps /\ prop_name p = hd) ->
  (forall n v, In (n, v) (map (fun '(n, v) => (if String.eqb n "" then hd else n, v)) (lowered F)) ->
     exists i p, find_prop n c = Some i /\ comp_props c !! i = Some p /\ decorate E S (prop_type p) v = None) ->
  upsert_node E S F c =
  (upsert_named E S (map (fun '(n, v) => (if String.eqb n "" then hd else n, v)) (lowered F)) c, None).
Proof.
  induction F as [|[k v] F IH]; intros c Hhd Hacc; [done|].
  destruct Hhd as (p & ps & Hps & Hp).
  assert (Hcons : forall q qs, comp_props c = q :: qs -> hd = prop_name q)
    by (intros q qs; rewrite Hps; intros [= <- _]; done).
  destruct (Hacc _ v (or_introl eq_refl)) as (i & q & Hi & Hq & Hd).
  rewrite upsert_node_cons, (upd_present E S (toLowerCase k) hd v c i q Hi Hq Hcons), Hd.
  cbn [lowered map]. rewrite upsert_named_cons. apply IH.
  - destruct (upd_named_head E S (if String.eqb (toLowerCase k) "" then hd else toLowerCase k) v c p ps Hps)
      as (p' & ps' & Hps' & Hn'). exists p', ps'. split; [done|congruence].
  - intros n w Hin. destruct (upd_named_present E S _ v c i Hi) as [Hn Ht].
    symmetry in Hn, Ht.
    destruct (Hacc n w (or_intror Hin)) as (j & r & Hj & Hr & Hdr).
    destruct (lookup_same_map prop_type _ _ j r Ht Hr) as (r' & Hr' & Hty).
    exists j, r'. split_and!; [|done|by rewrite Hty].
    unfold find_prop in *. by rewrite <- (first_index_names n _ _ Hn).
Qed.

Lemma upsert_node_present E S (F : FieldUpdates) c :
  (forall n v, In (n, v) (resolve_names c (lowered F)) ->
     exists i p, find_prop n c = Some i /\ comp_props c !! i = Some p /\ decorate E S (prop_type p) v = None) ->
  upsert_node E S F c = (upsert_named E S (resolve_names c (lowered F)) c, None).
Proof.
  intros Hacc. unfold resolve_names, first_name in *.
  destruct (comp_props c) as [|p ps] eqn:Hps.
  - destruct F as [|[k v] F]; [done|].
    destruct (Hacc _ v (or_introl eq_refl)) as (i & q & Hi & Hq & _).
    done.
  - rewrite <- Hps in Hacc.
    apply upsert_node_present_head; [by exists p, ps|exact Hacc].
Qed.

(** When every key is non-empty and names a property the node has, a run
    that throws nothing has each value accepted by the property the node
    had at the start. *)
Lemma upsert_node_ok_present E S (F : FieldUpdates) c c' :
  (forall kv, In kv F -> kv.1 <> "" /\ has_prop (toLowerCase kv.1) (comp_props c) = true) ->
  upsert_node E S F c = (c', None) ->
  forall n v, In (n, v) (lowered F) ->
  exists i p, find_prop n c = Some i /\ comp_props c !! i = Some p /\ decorate E S (prop_type p) v = None.
Proof.
  revert c; induction F as [|[k v] F IH]; intros c Hall Hrun n w Hin; [done|].
  destruct (Hall (k, v) (or_introl eq_refl)) as [Hk Hhas]. simpl in Hk, Hhas.
  assert (Hkn : toLowerCase k <> "") by (by rewrite toLowerCase_empty).
  destruct (has_prop_find _ _ Hhas) as (i & p & Hi & Hp).
  set (hd := match comp_props c with q :: _ => prop_name q | [] => "" end).
  assert (Hcons : forall q qs, comp_props c = q :: qs -> hd = prop_name q)
    by (intros q qs Hps; subst hd; by rewrite Hps).
  rewrite upsert_node_cons in Hrun.
  rewrite (upd_present E S (toLowerCase k) hd v c i p) in Hrun;
    [|by rewrite (proj2 (String.eqb_neq _ _) Hkn)|done|done].
  rewrite (proj2 (String.eqb_neq _ _) Hkn) in Hrun.
  destruct (decorate E S (prop_type p) v) eqn:Hd; [done|].
  destruct (upd_named_present E S _ v c i Hi) as [Hn Ht].
  destruct Hin as [Heq | Hin].
  - injection Heq as <- <-. by exists i, p.
  - apply (accepted_transfer E S c (upd_named E S (toLowerCase k) v c)); [done|done|].
    refine (IH _ _ Hrun n w Hin).
    intros kv Hkv. destruct (Hall kv (or_intror Hkv)) as [Hne Hh]. split; [done|].
    by rewrite (has_prop_names _ _ (comp_props c)).
Qed.

Lemma map_fst_lowered (F : FieldUpdates) :
  map fst (lowered F) = map (fun kv => toLowerCase kv.1) F.
Proof. unfold lowered. rewrite map_map. apply map_ext. by intros [k v]. Qed.

Lemma in_lowered_2 (F : FieldUpdates) k v : In (k, v) F -> In (toLowerCase k, v) (lowered F).
Proof. intros Hin. unfold lowered. by apply (in_map (fun '(key, value) => (toLowerCase key, value)) F (k, v)). Qed.

#[local] Open Scope list_scope.


Lemma dec_pos_enc p r : dec_pos (enc_pos p ++ r) = Some (p, r).
Proof. induction p as [p IH|p IH|]; simpl; rewrite ?IH; reflexivity. Qed.

Lemma dec_Z_enc z r : dec_Z (enc_Z z ++ r) = Some (z, r).
Proof. destruct z; simpl; rewrite ?dec_pos_enc; reflexivity. Qed.

Lemma dec_str_enc s r : dec_str (enc_str s ++ r) = Some (s, r).
Proof. induction s as [|a s IH]; simpl; [done|]. by rewrite IH. Qed.

Lemma dec_js_enc v r : dec_js (enc_js v ++ r) = Some (v, r).
Proof.
  destruct v as [| |[]|n|s|l]; simpl; rewrite ?dec_Z_enc, ?dec_str_enc, ?dec_pos_enc; reflexivity.
Qed.

Lemma enc_list_length {A} (e : A -> list ascii) xs : (length xs < length (enc_list e xs))%nat.
Proof. induction xs as [|x xs IH]; simpl; [lia|]. rewrite length_app. lia. Qed.

Lemma enc_list_elem_length {A} (e : A -> list ascii) xs x :
  In x xs -> (length (e x) < length (enc_list e xs))%nat.
Proof.
  induction xs as [|y xs IH]; intros Hin; [done|]. simpl. rewrite length_app.
  destruct Hin as [<- | Hin]; [lia|]. specialize (IH Hin). lia.
Qed.

Lemma dec_list_enc {A} (e : A -> list ascii) d xs fuel r :
  (forall x, In x xs -> forall r, d (e x ++ r) = Some (x, r)) ->
  (length xs < fuel)%nat ->
  dec_list fuel d (enc_list e xs ++ r) = Some (xs, r).
Proof.
  revert fuel; induction xs as [|x xs IH]; intros [|fuel] Hd Hf; simpl in *; try lia; [done|].
  rewrite <- app_assoc, Hd by (by left). rewrite IH; [done| |lia].
  intros y Hy. apply Hd. by right.
Qed.

Lemma dec_param_enc kv r : dec_param (enc_param kv ++ r) = Some (kv, r).
Proof.
  destruct kv as [k v]. unfold enc_param, dec_param. simpl.
  rewrite <- app_assoc, dec_str_enc, dec_js_enc. reflexivity.
Qed.

Lemma dec_prop_enc p r : dec_prop (enc_prop p ++ r) = Some (p, r).
Proof.
  destruct p as [n ps ty vs]. unfold enc_prop, dec_prop. simpl.
  rewrite <- !app_assoc, dec_str_enc.
  rewrite dec_list_enc; [| intros x _ r'; apply dec_param_enc |].
  2:{ rewrite length_app. pose proof (enc_list_length enc_param ps). lia. }
  rewrite dec_str_enc.
  rewrite dec_list_enc; [done| intros x _ r'; apply dec_js_enc |].
  rewrite length_app. pose proof (enc_list_length enc_js vs). lia.
Qed.

Lemma dec_comp_enc c : forall fuel r,
  (length (enc_comp c) <= fuel)%nat -> dec_comp fuel (enc_comp c ++ r) = Some (c, r).
Proof.
  induction c as [n ps subs IH] using comp_ind_nested.
  intros [|fuel] r Hf; simpl in Hf; [lia|].
  rewrite !length_app in Hf. simpl.
  rewrite <- !app_assoc, dec_str_enc.
  rewrite dec_list_enc; [| intros x _ r'; apply dec_prop_enc |].
  2:{ rewrite length_app. pose proof (enc_list_length enc_prop ps). lia. }
  rewrite dec_list_enc; [done| |].
  - intros x Hx r'. rewrite List.Forall_forall in IH. apply IH; [done|].
    pose proof (enc_list_elem_length enc_comp subs x Hx). lia.
  - rewrite length_app. pose proof (enc_list_length enc_comp subs). lia.
Qed.

Lemma rt_engine_roundtrip t : parse rt_engine (JStr (stringify rt_engine t)) = inr t.
Proof.
  simpl. unfold rt_parse, rt_stringify. rewrite String.list_ascii_of_string_of_list_ascii.
  pose proof (dec_comp_enc t (length (enc_comp t)) [] (le_n _)) as H.
  rewrite app_nil_r in H. by rewrite H.
Qed.

Lemma rt_engine_nonempty t : stringify rt_engine t <> "".
Proof. simpl. unfold rt_stringify. destruct t. simpl. discriminate. Qed.


(** ** Valid records and sample runs *)

Lemma valid_record_located E v :
  valid_record E v ->
  exists t r c, truthy v = true /\ parse E v = inr t /\ locate_target t = inr r /\ ref_lookup r t = Some c.
Proof.
  intros (Htr & t & Hp & Hsel). exists t.
  destruct (String.eqb_spec (comp_name t) "vcalendar") as [Hn|Hn].
  - destruct (locate_target_container t Hn) as [[Hs _] | (i & _ & Hl)]; [by destruct (Hsel Hn)|].
    destruct (locate_target_lookup t _ Hl) as [c Hc]. by exists (Some i), c.
  - pose proof (locate_target_standalone t Hn) as Hl.
    destruct (locate_target_lookup t _ Hl) as [c Hc]. by exists None, c.
Qed.

Lemma lowered_app (F1 F2 : FieldUpdates) : lowered (F1 ++ F2) = lowered F1 ++ lowered F2.
Proof. unfold lowered. apply map_app. Qed.

(** The target of a call that returns, and what the loop made of it. *)
Lemma updateFields_success_target E h inp (F : FieldUpdates) s :
  (forall kv, In kv F -> kv.1 <> "") ->
  updateFields_result E h inp F = inr s ->
  exists t r c, parse E (data_of h inp) = inr t /\ locate_target t = inr r /\
    ref_lookup r t = Some c /\
    s = stringify E (alter_ref r (fun _ => upsert_named E (getDesignSet E (comp_name t)) (lowered F) c) t).
Proof.
  intros Hne Hs.
  destruct (updateFields_success E h inp F s Hs) as (t & r & c & c' & _ & Hp & Hl & Hc & Hrun & ->).
  rewrite (upsert_node_ok_nonempty E _ F c c' Hne Hrun).
  exists t, r, c. by split_and!.
Qed.

(** The tree the engine parses from the input text. *)
Ltac solve_valid t :=
  split; [vm_compute; reflexivity|];
  exists t; split; [vm_compute; reflexivity|]; intros _; vm_compute; congruence.

Lemma event_first_vevent : is_update_target_index event_cal 1.
Proof.
  exists "vevent", event_main. split_and!; try reflexivity.
  intros [|j] c0 Hj Hc0; [|lia]. injection Hc0 as <-. discriminate.
Qed.

Lemma todo_first_vtodo : is_update_target_index journal_todo_cal 1.
Proof.
  exists "vtodo", (mkComp "vtodo" [text_prop "summary" "Task"; mkProp "priority" [] "integer" [JNum 5]] []).
  split_and!; try reflexivity.
  intros [|j] c0 Hj Hc0; [|lia]. injection Hc0 as <-. discriminate.
Qed.

(** The sample engine gives back the tree of every text it accepts. *)
Lemma demo_engine_roundtrip :
  forall v t, parse demo_engine v = inr t -> parse demo_engine (JStr (stringify demo_engine t)) = inr t.
Proof.
  intros v t H. change (parse demo_engine v) with (demo_parse v) in H.
  unfold demo_parse in H. destruct v as [| | | |s|]; try discriminate.
  destruct (List.find _ demo_samples) as [t'|] eqn:Hf; [|discriminate].
  injection H as <-. pose proof (find_some _ _ Hf) as [_ Heq]. apply String.eqb_eq in Heq.
  change (parse demo_engine (JStr (stringify demo_engine t'))) with (demo_parse (JStr (demo_stringify t'))).
  unfold demo_parse. by rewrite Heq, Hf.
Qed.

(** * The claims *)

(** ** C1 *)

(** C1 (counterexample): the empty key is no name of any property, so
    the uid property is kept out of the update by the spec's rule, yet
    [getFirstProperty("")] returns the first property, uid, whose value
    the call overwrites; and the value "20250130T140000Z" given for
    DTSTART makes the date-time decorator throw, so the call returns no
    record at all. *)
Lemma updateFields_empty_key_counterexample :
  parse demo_engine (JStr event_text) = inr event_cal /\
  is_update_target_index event_cal 1 /\ comp_subs event_cal !! 1%nat = Some event_main /\
  keep [("", "x")] (text_prop "uid" "test-event-12345@example.com") = true /\
  comp_props event_main !! 0%nat = Some (text_prop "uid" "test-event-12345@example.com") /\
  updateFields_result demo_engine ∅ (InStr event_text) [("", "x")] =
    inr (stringify demo_engine (alter_ref (Some 1%nat)
      (fun _ => mkComp "vevent" (text_prop "uid" "x" :: tail (comp_props event_main)) (comp_subs event_main))
      event_cal)) /\
  updateFields_result demo_engine ∅ (InStr event_text) [("DTSTART", "20250130T140000Z")] =
    inl (EngineError ("invalid date-time value: " +:+ dq +:+ "20250130T140000Z" +:+ dq)).
Proof.
  split_and!; try (vm_compute; reflexivity). exact event_first_vevent.
Qed.

(** C1 (amended): for a call that returns a text and whose field map has
    no empty key, every property whose name is, up to case, no key of the
    map keeps its value and relative order on the update target; the
    container's own properties and every child other than the target
    (siblings included, even where they carry properties named like keys
    of the map) are serialised unchanged; on a standalone record the
    root's children are unchanged. *)
Theorem updateFields_preserves_other_properties E h inp (F : FieldUpdates) s :
  (forall kv, In kv F -> kv.1 <> "") ->
  updateFields_result E h inp F = inr s ->
  exists t t', parse E (data_of h inp) = inr t /\ s = stringify E t' /\ comp_name t' = comp_name t /\
    if String.eqb (comp_name t) "vcalendar" then
      comp_props t' = comp_props t /\
      exists i c c', is_update_target_index t i /\ comp_subs t !! i = Some c /\
        comp_subs t' = <[i := c']> (comp_subs t) /\
        comp_name c' = comp_name c /\ comp_subs c' = comp_subs c /\
        List.filter (keep F) (comp_props c') = List.filter (keep F) (comp_props c)
    else comp_subs t' = comp_subs t /\
      List.filter (keep F) (comp_props t') = List.filter (keep F) (comp_props t).
Proof.
  intros Hne Hs.
  destruct (updateFields_success_target E h inp F s Hne Hs) as (t & r & c & Hp & Hl & Hc & ->).
  set (c' := upsert_named E (getDesignSet E (comp_name t)) (lowered F) c).
  destruct (locate_target_update t r (fun _ => c') Hl) as (c0 & Hc0 & _ & Hinfo).
  rewrite Hc in Hc0. injection Hc0 as <-.
  exists t, (alter_ref r (fun _ => c') t). split_and!; [done|done| |].
  - apply (alter_ref_name r t c c' Hc). apply upsert_named_name.
  - destruct (String.eqb_spec (comp_name t) "vcalendar") as [Hn|Hn].
    + destruct Hinfo as (i & -> & Hi & Hprops & Hci & Hsubs). split; [done|].
      exists i, c, c'. split_and!; try done.
      * apply upsert_named_name.
      * apply upsert_named_subs.
      * apply keep_preserved.
    + destruct Hinfo as [-> Hct]. simpl. rewrite <- Hct.
      split; [apply upsert_named_subs|apply keep_preserved].
Qed.

Lemma updateFields_preserves_other_properties_witness :
  (forall kv, In kv [("SUMMARY", "Updated")] -> kv.1 <> "") /\
  updateFields_result demo_engine (h_dav (JStr event_text) "abc123") (InObj 1%positive)
    [("SUMMARY", "Updated")] =
    inr (stringify demo_engine (alter_ref (Some 1%nat)
      (fun _ => (upsert_node demo_engine "icalendar" [("SUMMARY", "Updated")] event_main).1) event_cal)) /\
  exists t t',
    parse demo_engine (data_of (h_dav (JStr event_text) "abc123") (InObj 1%positive)) = inr t /\
    stringify demo_engine (alter_ref (Some 1%nat)
      (fun _ => (upsert_node demo_engine "icalendar" [("SUMMARY", "Updated")] event_main).1) event_cal) =
      stringify demo_engine t' /\ comp_name t' = comp_name t /\
    if String.eqb (comp_name t) "vcalendar" then
      comp_props t' = comp_props t /\
      exists i c c', is_update_target_index t i /\ comp_subs t !! i = Some c /\
        comp_subs t' = <[i := c']> (comp_subs t) /\
        comp_name c' = comp_name c /\ comp_subs c' = comp_subs c /\
        List.filter (keep [("SUMMARY", "Updated")]) (comp_props c') =
        List.filter (keep [("SUMMARY", "Updated")]) (comp_props c)
    else comp_subs t' = comp_subs t /\
      List.filter (keep [("SUMMARY", "Updated")]) (comp_props t') =
      List.filter (keep [("SUMMARY", "Updated")]) (comp_props t).
Proof.
  assert (H1 : forall kv, In kv [("SUMMARY", "Updated")] -> kv.1 <> "")
    by (intros kv [<- | []]; discriminate).
  assert (H2 : updateFields_result demo_engine (h_dav (JStr event_text) "abc123") (InObj 1%positive)
    [("SUMMARY", "Updated")] =
    inr (stringify demo_engine (alter_ref (Some 1%nat)
      (fun _ => (upsert_node demo_engine "icalendar" [("SUMMARY", "Updated")] event_main).1) event_cal)))
    by (vm_compute; reflexivity).
  refine (conj H1 (conj H2 _)).
  exact (updateFields_preserves_other_properties demo_engine _ _ _ _ H1 H2).
Defined.

(** ** C2 *)

(** C2 (counterexample): with the keys "SUMMARY" and "summary" in one
    field map, the target ends up with no property named summary holding
    the value given for "SUMMARY"; and a value is not taken as is when
    the engine decorates the property's type: the date-time decorator
    rejects "20250130T140000Z" and the call returns no record. *)
Lemma updateFields_upsert_collision_counterexample :
  parse demo_engine (JStr event_text) = inr event_cal /\
  is_update_target_index event_cal 1 /\ comp_subs event_cal !! 1%nat = Some event_main /\
  updateFields_result demo_engine ∅ (InStr event_text) [("SUMMARY", "Updated"); ("summary", "Other value")] =
    inr (stringify demo_engine (alter_ref (Some 1%nat)
      (fun _ => mkComp "vevent"
         [text_prop "uid" "test-event-12345@example.com"; text_prop "summary" "Other value";
          text_prop "location" "Conference Room A"] (comp_subs event_main)) event_cal)) /\
  ~ (exists p, In p [text_prop "uid" "test-event-12345@example.com"; text_prop "summary" "Other value";
                     text_prop "location" "Conference Room A"] /\
      prop_name p = toLowerCase "SUMMARY" /\ prop_values p = [JStr "Updated"]) /\
  updateFields_result demo_engine ∅ (InStr event_text) [("DTSTART", "20250130T140000Z")] =
    inl (EngineError ("invalid date-time value: " +:+ dq +:+ "20250130T140000Z" +:+ dq)).
Proof.
  split_and!; try (vm_compute; reflexivity).
  - exact event_first_vevent.
  - intros (p & Hin & Hn & Hv).
    repeat (destruct Hin as [<-|Hin]; [vm_compute in Hn, Hv; congruence|]). done.
Qed.

(** C2 (amended): for a call that returns a text, whose field map has no
    empty key, and an entry (key, value) of the field map after which no
    key equal to [key] up to case is enumerated, the first property named
    [toLowerCase key] of the update target in the serialised tree has
    [value] as its only value. If the target already had a property of
    that name, it is the first one, at its place, with its parameters and
    type; otherwise it is a new property behind all the target's original
    ones. *)
Theorem updateFields_upserts_last_entry E h inp (F1 : FieldUpdates) key value (F2 : FieldUpdates) s :
  (forall kv, In kv (F1 ++ (key, value) :: F2) -> kv.1 <> "") ->
  (forall kv, In kv F2 -> toLowerCase kv.1 <> toLowerCase key) ->
  updateFields_result E h inp (F1 ++ (key, value) :: F2) = inr s ->
  exists t t' c c' j p,
    parse E (data_of h inp) = inr t /\ s = stringify E t' /\
    target_pair t t' c c' /\
    getFirstProperty (toLowerCase key) c' = Some j /\ comp_props c' !! j = Some p /\
    prop_name p = toLowerCase key /\ prop_values p = [JStr value] /\
    match getFirstProperty (toLowerCase key) c with
    | Some j0 => j = j0 /\ exists p0, comp_props c !! j0 = Some p0 /\
        prop_params p = prop_params p0 /\ prop_type p = prop_type p0
    | None => (length (comp_props c) <= j)%nat
    end.
Proof.
  intros Hne Hlast Hs.
  destruct (updateFields_success_target E h inp _ s Hne Hs) as (t & r & c & Hp & Hl & Hc & ->).
  assert (Hkey : toLowerCase key <> "").
  { rewrite toLowerCase_empty. apply (Hne (key, value)). apply in_or_app. right. by left. }
  set (S := getDesignSet E (comp_name t)).
  rewrite lowered_app. cbn [lowered map].
  fold (lowered F2).
  destruct (upsert_named_last_wins E S (lowered F1) (toLowerCase key) value (lowered F2) c)
    as (j & p & Hj & Hpj & Hn & Hval & Hrel).
  { intros [n w] (k & Hk & ->)%in_lowered. apply (Hlast (k, w) Hk). }
  set (c' := upsert_named E S (lowered F1 ++ (toLowerCase key, value) :: lowered F2) c) in *.
  destruct (locate_target_update t r (fun _ => c') Hl) as (c0 & Hc0 & Hpair & _).
  rewrite Hc in Hc0. injection Hc0 as <-.
  exists t, (alter_ref r (fun _ => c') t), c, c', j, p.
  rewrite !getFirstProperty_named by done.
  split_and!; done.
Qed.

Lemma updateFields_upserts_last_entry_witness :
  (forall kv, In kv ([("SUMMARY", "First")] ++ ("summary", "Second") :: [("LOCATION", "Remote")]) -> kv.1 <> "") /\
  (forall kv, In kv [("LOCATION", "Remote")] -> toLowerCase kv.1 <> toLowerCase "summary") /\
  updateFields_result demo_engine ∅ (InStr event_text)
    ([("SUMMARY", "First")] ++ ("summary", "Second") :: [("LOCATION", "Remote")]) =
    inr (stringify demo_engine (alter_ref (Some 1%nat)
      (fun _ => (upsert_node demo_engine "icalendar"
         ([("SUMMARY", "First")] ++ ("summary", "Second") :: [("LOCATION", "Remote")]) event_main).1) event_cal)) /\
  exists t t' c c' j p,
    parse demo_engine (data_of ∅ (InStr event_text)) = inr t /\
    stringify demo_engine (alter_ref (Some 1%nat)
      (fun _ => (upsert_node demo_engine "icalendar"
         ([("SUMMARY", "First")] ++ ("summary", "Second") :: [("LOCATION", "Remote")]) event_main).1) event_cal) =
      stringify demo_engine t' /\
    target_pair t t' c c' /\
    getFirstProperty (toLowerCase "summary") c' = Some j /\ comp_props c' !! j = Some p /\
    prop_name p = toLowerCase "summary" /\ prop_values p = [JStr "Second"] /\
    match getFirstProperty (toLowerCase "summary") c with
    | Some j0 => j = j0 /\ exists p0, comp_props c !! j0 = Some p0 /\
        prop_params p = prop_params p0 /\ prop_type p = prop_type p0
    | None => (length (comp_props c) <= j)%nat
    end.
Proof.
  assert (H1 : forall kv, In kv ([("SUMMARY", "First")] ++ ("summary", "Second") :: [("LOCATION", "Remote")]) ->
                 kv.1 <> "")
    by (intros kv [<- | [<- | [<- | []]]]; discriminate).
  assert (H2 : forall kv, In kv [("LOCATION", "Remote")] -> toLowerCase kv.1 <> toLowerCase "summary")
    by (intros kv [<- | []]; vm_compute; discriminate).
  assert (H3 : updateFields_result demo_engine ∅ (InStr event_text)
    ([("SUMMARY", "First")] ++ ("summary", "Second") :: [("LOCATION", "Remote")]) =
    inr (stringify demo_engine (alter_ref (Some 1%nat)
      (fun _ => (upsert_node demo_engine "icalendar"
         ([("SUMMARY", "First")] ++ ("summary", "Second") :: [("LOCATION", "Remote")]) event_main).1) event_cal)))
    by (vm_compute; reflexivity).
  refine (conj H1 (conj H2 (conj H3 _))).
  exact (updateFields_upserts_last_entry demo_engine ∅ _ _ _ _ _ _ H1 H2 H3).
Defined.

(** ** C3 *)

(** C3 (target selection): on a parsed container record the update lands
    on the first child of the first of the types event, task, journal
    that occurs among the children, and only there; with no child of
    these types the call throws NoUpdatableComponent and returns nothing. *)
Theorem updateFields_container_target E h inp (F : FieldUpdates) t :
  truthy (data_of h inp) = true -> parse E (data_of h inp) = inr t ->
  comp_name t = "vcalendar" ->
  (selected_type t = None /\
   updateFields_result E h inp F = inl (NoUpdatableComponent no_component_msg)) \/
  (exists i c, is_update_target_index t i /\ comp_subs t !! i = Some c /\
     updateFields_result E h inp F =
     match upsert_node E (getDesignSet E "vcalendar") F c with
     | (c', None) => inr (stringify E (mkComp (comp_name t) (comp_props t) (<[i := c']> (comp_subs t))))
     | (_, Some m) => inl (EngineError m)
     end).
Proof.
  intros Htr Hp Hn.
  destruct (locate_target_container t Hn) as [[Hs Hl] | (i & Hi & Hl)].
  - left. split; [done|]. rewrite updateFields_result_run, Htr, Hp. simpl. by rewrite Hl.
  - right. pose proof Hi as (ty & c & Hsel & Hc & Hcn & Hb).
    exists i, c. split_and!; [done|done|].
    rewrite (updateFields_result_located E h inp F t (Some i) c Htr Hp Hl Hc).
    replace (getDesignSet E "vcalendar") with (getDesignSet E (comp_name t)) by (by rewrite Hn).
    destruct (upsert_node _ _ F c) as [c' [m|]]; [done|]. simpl.
    by rewrite (list_alter_as_insert _ _ _ c Hc).
Qed.

Lemma updateFields_container_target_witness :
  truthy (data_of ∅ (InStr journal_todo_text)) = true /\
  parse demo_engine (data_of ∅ (InStr journal_todo_text)) = inr journal_todo_cal /\
  comp_name journal_todo_cal = "vcalendar" /\
  ((selected_type journal_todo_cal = None /\
    updateFields_result demo_engine ∅ (InStr journal_todo_text) [("STATUS", "COMPLETED")] =
    inl (NoUpdatableComponent no_component_msg)) \/
   (exists i c, is_update_target_index journal_todo_cal i /\ comp_subs journal_todo_cal !! i = Some c /\
      updateFields_result demo_engine ∅ (InStr journal_todo_text) [("STATUS", "COMPLETED")] =
      match upsert_node demo_engine (getDesignSet demo_engine "vcalendar") [("STATUS", "COMPLETED")] c with
      | (c', None) => inr (stringify demo_engine (mkComp (comp_name journal_todo_cal)
                        (comp_props journal_todo_cal) (<[i := c']> (comp_subs journal_todo_cal))))
      | (_, Some m) => inl (EngineError m)
      end)).
Proof.
  assert (H1 : truthy (data_of ∅ (InStr journal_todo_text)) = true) by (vm_compute; reflexivity).
  assert (H2 : parse demo_engine (data_of ∅ (InStr journal_todo_text)) = inr journal_todo_cal)
    by (vm_compute; reflexivity).
  split_and!; [exact H1|exact H2|reflexivity|].
  exact (updateFields_container_target demo_engine ∅ _ _ _ H1 H2 eq_refl).
Defined.

(** ** C4 *)

(** C4 (counterexample): a wrapper whose [data] is the number 42, not a
    string, is not rejected as InvalidInput: the value is truthy, so it is
    handed to the parser. *)
Lemma updateFields_nonstring_data_counterexample :
  data_of (h_dav (JNum 42) "abc123") (InObj 1%positive) = JNum 42 /\
  updateFields_result demo_engine (h_dav (JNum 42) "abc123") (InObj 1%positive) [("SUMMARY", "Test")] =
  inl (ParseFailure "Failed to parse iCal data: input is not a string").
Proof. split; vm_compute; reflexivity. Qed.

(** C4 (amended): the call throws InvalidInput exactly when the extracted
    value is falsy (empty string, absent or undefined [data], null, false,
    0); it then returns at once, with the heap as it was and whatever the
    engine, so before any parse. A truthy value, string or not, is never
    reported as InvalidInput: it is handed to the parser, and when the
    parser rejects it with message [msg] the call throws ParseFailure
    with "Failed to parse iCal data: " followed by [msg], the heap again
    as it was. *)
Theorem updateFields_invalid_input_iff_falsy E h inp (F : FieldUpdates) :
  (truthy (data_of h inp) = false ->
     updateFields E inp F h = (h, inl (InvalidInput invalid_input_msg))) /\
  (truthy (data_of h inp) = true ->
     forall m, updateFields_result E h inp F <> inl (InvalidInput m)) /\
  (truthy (data_of h inp) = true -> forall msg, parse E (data_of h inp) = inl msg ->
     updateFields E inp F h = (h, inl (ParseFailure ("Failed to parse iCal data: " +:+ msg)))).
Proof.
  split_and!; intros Ht.
  - rewrite updateFields_run, Ht. reflexivity.
  - intros m. rewrite updateFields_result_run, Ht. simpl.
    destruct (parse E _) as [msg|t]; [discriminate|].
    destruct (locate_target t) as [e|r] eqn:Hl.
    + rewrite (locate_target_err t e Hl). discriminate.
    + destruct (locate_target_lookup t r Hl) as [c Hc].
      rewrite (upsert_all_found _ _ _ _ _ c Hc). simpl.
      destruct (upsert_node _ _ F c) as [c' [m'|]]; discriminate.
  - intros msg Hp. rewrite updateFields_run, Ht, Hp. reflexivity.
Qed.

(** ** C5 *)

(** C5 (parse failures): a non-empty text that the engine rejects with
    message [msg] makes the call throw ParseFailure with the message
    "Failed to parse iCal data: " followed by [msg], and nothing else. *)
Theorem updateFields_parse_failure E h inp (F : FieldUpdates) s msg :
  data_of h inp = JStr s -> s <> "" -> parse E (JStr s) = inl msg ->
  updateFields_result E h inp F = inl (ParseFailure ("Failed to parse iCal data: " +:+ msg)).
Proof.
  intros Hd Hs Hp. rewrite updateFields_result_run, Hd, Hp. simpl.
  destruct (String.eqb_spec s ""); [done|]. reflexivity.
Qed.

Lemma updateFields_parse_failure_witness :
  data_of ∅ (InStr "NOT A VALID RECORD") = JStr "NOT A VALID RECORD" /\
  "NOT A VALID RECORD" <> "" /\
  parse demo_engine (JStr "NOT A VALID RECORD") = inl "invalid line (no token ; or :)" /\
  updateFields_result demo_engine ∅ (InStr "NOT A VALID RECORD") [("SUMMARY", "Test")] =
  inl (ParseFailure ("Failed to parse iCal data: " +:+ "invalid line (no token ; or :)")).
Proof.
  assert (H1 : data_of ∅ (InStr "NOT A VALID RECORD") = JStr "NOT A VALID RECORD") by reflexivity.
  assert (H2 : "NOT A VALID RECORD" <> "") by discriminate.
  assert (H3 : parse demo_engine (JStr "NOT A VALID RECORD") = inl "invalid line (no token ; or :)")
    by (vm_compute; reflexivity).
  split_and!; [exact H1|exact H2|exact H3|].
  exact (updateFields_parse_failure demo_engine ∅ _ _ _ _ H1 H2 H3).
Defined.

(** ** C6 *)

(** C6 (empty field map): with an engine that gives back the tree of a text
    it produced from a parsed tree (the spec's Parsed Tree invariant), a
    valid record updated with the empty map comes back as the
    serialisation of its own parsed tree, which parses to the same tree. *)
Theorem updateFields_empty_map_roundtrip E h inp :
  (forall v t, parse E v = inr t -> parse E (JStr (stringify E t)) = inr t) ->
  valid_record E (data_of h inp) ->
  exists t s, parse E (data_of h inp) = inr t /\ updateFields_result E h inp [] = inr s /\
    s = stringify E t /\ parse E (JStr s) = parse E (data_of h inp).
Proof.
  intros Hrt Hv. destruct (valid_record_located E _ Hv) as (t & r & c & Ht & Hp & Hl & Hc).
  rewrite (updateFields_result_located E h inp [] t r c Ht Hp Hl Hc). simpl.
  rewrite (alter_ref_same r t c Hc).
  exists t, (stringify E t). split_and!; try done.
  rewrite Hp. by apply (Hrt (data_of h inp)).
Qed.

Lemma updateFields_empty_map_roundtrip_witness :
  (forall v t, parse demo_engine v = inr t -> parse demo_engine (JStr (stringify demo_engine t)) = inr t) /\
  valid_record demo_engine (data_of (h_dav (JStr event_text) "abc123") (InObj 1%positive)) /\
  exists t s, parse demo_engine (data_of (h_dav (JStr event_text) "abc123") (InObj 1%positive)) = inr t /\
    updateFields_result demo_engine (h_dav (JStr event_text) "abc123") (InObj 1%positive) [] = inr s /\
    s = stringify demo_engine t /\
    parse demo_engine (JStr s) = parse demo_engine (data_of (h_dav (JStr event_text) "abc123") (InObj 1%positive)).
Proof.
  assert (Hv : valid_record demo_engine (data_of (h_dav (JStr event_text) "abc123") (InObj 1%positive)))
    by solve_valid event_cal.
  split_and!; [exact demo_engine_roundtrip|exact Hv|].
  exact (updateFields_empty_map_roundtrip demo_engine _ _ demo_engine_roundtrip Hv).
Defined.

(** ** C7 *)

(** C7 (standalone records): whatever its type name, a parsed root that
    is not a container is itself the update target: the call never throws
    NoUpdatableComponent for it, with the empty map it returns the root
    as parsed, and otherwise it returns the serialisation of the root
    after the update loop, or the error an engine decorator throws in it. *)
Theorem updateFields_standalone_root E h inp (F : FieldUpdates) t :
  truthy (data_of h inp) = true -> parse E (data_of h inp) = inr t ->
  comp_name t <> "vcalendar" ->
  (forall m, updateFields_result E h inp F <> inl (NoUpdatableComponent m)) /\
  updateFields_result E h inp [] = inr (stringify E t) /\
  updateFields_result E h inp F =
  match upsert_node E (getDesignSet E (comp_name t)) F t with
  | (t', None) => inr (stringify E t')
  | (_, Some m) => inl (EngineError m)
  end.
Proof.
  intros Htr Hp Hn. pose proof (locate_target_standalone t Hn) as Hl.
  assert (Hc : ref_lookup None t = Some t) by done.
  split_and!.
  - intros m. rewrite (updateFields_result_located E h inp F t None t Htr Hp Hl Hc).
    destruct (upsert_node _ _ F t) as [t' [m'|]]; discriminate.
  - rewrite (updateFields_result_located E h inp [] t None t Htr Hp Hl Hc). reflexivity.
  - rewrite (updateFields_result_located E h inp F t None t Htr Hp Hl Hc).
    destruct (upsert_node _ _ F t) as [t' [m'|]]; reflexivity.
Qed.

Lemma updateFields_standalone_root_witness :
  truthy (data_of ∅ (InStr contact_text)) = true /\
  parse demo_engine (data_of ∅ (InStr contact_text)) = inr contact_card /\
  comp_name contact_card <> "vcalendar" /\
  (forall m, updateFields_result demo_engine ∅ (InStr contact_text) [("FN", "Jane Doe")] <>
               inl (NoUpdatableComponent m)) /\
  updateFields_result demo_engine ∅ (InStr contact_text) [] = inr (stringify demo_engine contact_card) /\
  updateFields_result demo_engine ∅ (InStr contact_text) [("FN", "Jane Doe")] =
  match upsert_node demo_engine (getDesignSet demo_engine (comp_name contact_card)) [("FN", "Jane Doe")]
          contact_card with
  | (t', None) => inr (stringify demo_engine t')
  | (_, Some m) => inl (EngineError m)
  end.
Proof.
  assert (H1 : truthy (data_of ∅ (InStr contact_text)) = true) by (vm_compute; reflexivity).
  assert (H2 : parse demo_engine (data_of ∅ (InStr contact_text)) = inr contact_card)
    by (vm_compute; reflexivity).
  assert (H3 : comp_name contact_card <> "vcalendar") by discriminate.
  refine (conj H1 (conj H2 (conj H3 _))).
  exact (updateFields_standalone_root demo_engine ∅ _ _ _ H1 H2 H3).
Defined.

(** ** C8 *)

(** C8 (non-mutation): every object the caller holds is in the heap after
    the call exactly as before, whether the call returns or throws; the
    only cell written is the fresh one holding the parsed tree. *)
Theorem updateFields_does_not_mutate_caller E h inp (F : FieldUpdates) :
  h ⊆ fst (updateFields E inp F h).
Proof.
  rewrite updateFields_run.
  assert (Hfresh : h !! fresh (dom h) = None) by apply not_elem_of_dom, is_fresh.
  destruct (negb _); simpl; [done|]. destruct (parse E _); simpl; [done|].
  destruct (locate_target _); simpl; by apply insert_subseteq.
Qed.

(** ** C9 *)

(** C9 (wrapper fields ignored): two wrapper objects whose [data] fields
    agree give the same result, whatever their other fields; with a
    string in [data] it is the result for that string itself. *)
Theorem updateFields_ignores_wrapper_extras E (h1 h2 : heap) l1 l2 o1 o2 (F : FieldUpdates) :
  h1 !! l1 = Some (CObj o1) -> h2 !! l2 = Some (CObj o2) -> o1 !! "data" = o2 !! "data" ->
  updateFields_result E h1 (InObj l1) F = updateFields_result E h2 (InObj l2) F /\
  (forall s, o1 !! "data" = Some (JStr s) ->
     updateFields_result E h1 (InObj l1) F = updateFields_result E ∅ (InStr s) F).
Proof.
  intros H1 H2 Hd.
  assert (Hd1 : data_of h1 (InObj l1) = default JUndef (o1 !! "data")) by (simpl; by rewrite H1).
  assert (Hd2 : data_of h2 (InObj l2) = default JUndef (o2 !! "data")) by (simpl; by rewrite H2).
  rewrite !updateFields_result_run, Hd1, Hd2, Hd. split; [done|].
  intros s Hs. rewrite Hs, updateFields_result_run. reflexivity.
Qed.

Lemma updateFields_ignores_wrapper_extras_witness :
  h_dav (JStr event_text) "abc123" !! 1%positive = Some (CObj (dav_fields (JStr event_text) "abc123")) /\
  h_dav (JStr event_text) "zzz999" !! 1%positive = Some (CObj (dav_fields (JStr event_text) "zzz999")) /\
  dav_fields (JStr event_text) "abc123" !! "data" = dav_fields (JStr event_text) "zzz999" !! "data" /\
  (updateFields_result demo_engine (h_dav (JStr event_text) "abc123") (InObj 1%positive) [("LOCATION", "Remote")] =
   updateFields_result demo_engine (h_dav (JStr event_text) "zzz999") (InObj 1%positive) [("LOCATION", "Remote")] /\
   (forall s, dav_fields (JStr event_text) "abc123" !! "data" = Some (JStr s) ->
      updateFields_result demo_engine (h_dav (JStr event_text) "abc123") (InObj 1%positive) [("LOCATION", "Remote")] =
      updateFields_result demo_engine ∅ (InStr s) [("LOCATION", "Remote")])).
Proof.
  assert (H1 : h_dav (JStr event_text) "abc123" !! 1%positive =
               Some (CObj (dav_fields (JStr event_text) "abc123"))) by reflexivity.
  assert (H2 : h_dav (JStr event_text) "zzz999" !! 1%positive =
               Some (CObj (dav_fields (JStr event_text) "zzz999"))) by reflexivity.
  assert (H3 : dav_fields (JStr event_text) "abc123" !! "data" =
               dav_fields (JStr event_text) "zzz999" !! "data") by (vm_compute; reflexivity).
  refine (conj H1 (conj H2 (conj H3 _))).
  exact (updateFields_ignores_wrapper_extras demo_engine _ _ _ _ _ _ _ H1 H2 H3).
Defined.

(** ** C10 *)

(** C10 (counterexample): an empty key enumerated after "SUMMARY" and
    "summary" stands for the first property of the task, summary, so
    the value left there is that of the empty key, not that of the last
    of the two keys equal up to case. *)
Lemma updateFields_empty_key_after_collision_counterexample :
  parse demo_engine (JStr journal_todo_text) = inr journal_todo_cal /\
  is_update_target_index journal_todo_cal 1 /\
  updateFields_result demo_engine ∅ (InStr journal_todo_text) [("SUMMARY", "a"); ("summary", "b"); ("", "c")] =
    inr (stringify demo_engine (alter_ref (Some 1%nat)
      (fun _ => mkComp "vtodo" [text_prop "summary" "c"; mkProp "priority" [] "integer" [JNum 5]] [])
      journal_todo_cal)).
Proof. split_and!; try (vm_compute; reflexivity). exact todo_first_vtodo. Qed.

(** C10 (amended): in a call that returns a text and whose field map has
    no empty key, two distinct keys that lowercase to the same name
    update the same property of the target: the first property of that
    name holds the value of the key enumerated last, and the target has
    as many properties of that name as before, or one if it had none. *)
Theorem updateFields_case_insensitive_keys E h inp (F1 F2 F3 : FieldUpdates) k1 v1 k2 v2 s :
  (forall kv, In kv (F1 ++ (k1, v1) :: F2 ++ (k2, v2) :: F3) -> kv.1 <> "") ->
  k1 <> k2 -> toLowerCase k1 = toLowerCase k2 ->
  (forall kv, In kv F3 -> toLowerCase kv.1 <> toLowerCase k2) ->
  updateFields_result E h inp (F1 ++ (k1, v1) :: F2 ++ (k2, v2) :: F3) = inr s ->
  exists t t' c c' j p,
    parse E (data_of h inp) = inr t /\ s = stringify E t' /\
    target_pair t t' c c' /\
    getFirstProperty (toLowerCase k1) c' = Some j /\ comp_props c' !! j = Some p /\
    prop_values p = [JStr v2] /\
    count_named (toLowerCase k1) c' = Nat.max 1 (count_named (toLowerCase k1) c).
Proof.
  intros Hne _ Hlow Hlast Hs.
  destruct (updateFields_success_target E h inp _ s Hne Hs) as (t & r & c & Hp & Hl & Hc & ->).
  assert (Hkey : toLowerCase k1 <> "").
  { rewrite toLowerCase_empty. apply (Hne (k1, v1)). apply in_or_app. right. by left. }
  set (S := getDesignSet E (comp_name t)).
  assert (HF : lowered (F1 ++ (k1, v1) :: F2 ++ (k2, v2) :: F3) =
               (lowered (F1 ++ (k1, v1) :: F2) ++ (toLowerCase k2, v2) :: lowered F3)).
  { rewrite app_comm_cons, app_assoc, lowered_app. reflexivity. }
  destruct (upsert_named_last_wins E S (lowered (F1 ++ (k1, v1) :: F2)) (toLowerCase k2) v2 (lowered F3) c)
    as (j & p & Hj & Hpj & _ & Hval & _).
  { intros [n w] (k & Hk & ->)%in_lowered. apply (Hlast (k, w) Hk). }
  rewrite <- HF in Hj, Hpj. rewrite <- Hlow in Hj.
  set (c' := upsert_named E S (lowered (F1 ++ (k1, v1) :: F2 ++ (k2, v2) :: F3)) c) in *.
  destruct (locate_target_update t r (fun _ => c') Hl) as (c0 & Hc0 & Hpair & _).
  rewrite Hc in Hc0. injection Hc0 as <-.
  exists t, (alter_ref r (fun _ => c') t), c, c', j, p.
  rewrite getFirstProperty_named by done.
  split_and!; try done.
  subst c'. rewrite upsert_named_count.
  replace (existsb _ _) with true; [done|].
  symmetry. apply existsb_exists. exists (toLowerCase k1, v1). split; [|by rewrite String.eqb_refl].
  apply in_lowered_2. apply in_or_app. right. by left.
Qed.

Lemma updateFields_case_insensitive_keys_witness :
  (forall kv, In kv ([] ++ ("SUMMARY", "Updated") :: [("LOCATION", "Remote")] ++ ("summary", "Other value") :: [])
     -> kv.1 <> "") /\
  "SUMMARY" <> "summary" /\ toLowerCase "SUMMARY" = toLowerCase "summary" /\
  (forall kv, In kv (@nil (string * string)) -> toLowerCase kv.1 <> toLowerCase "summary") /\
  updateFields_result demo_engine ∅ (InStr event_text)
    ([] ++ ("SUMMARY", "Updated") :: [("LOCATION", "Remote")] ++ ("summary", "Other value") :: []) =
    inr (stringify demo_engine (alter_ref (Some 1%nat)
      (fun _ => (upsert_node demo_engine "icalendar"
         ([] ++ ("SUMMARY", "Updated") :: [("LOCATION", "Remote")] ++ ("summary", "Other value") :: [])
         event_main).1) event_cal)) /\
  exists t t' c c' j p,
    parse demo_engine (data_of ∅ (InStr event_text)) = inr t /\
    stringify demo_engine (alter_ref (Some 1%nat)
      (fun _ => (upsert_node demo_engine "icalendar"
         ([] ++ ("SUMMARY", "Updated") :: [("LOCATION", "Remote")] ++ ("summary", "Other value") :: [])
         event_main).1) event_cal) = stringify demo_engine t' /\
    target_pair t t' c c' /\
    getFirstProperty (toLowerCase "SUMMARY") c' = Some j /\ comp_props c' !! j = Some p /\
    prop_values p = [JStr "Other value"] /\
    count_named (toLowerCase "SUMMARY") c' = Nat.max 1 (count_named (toLowerCase "SUMMARY") c).
Proof.
  assert (H0 : forall kv, In kv ([] ++ ("SUMMARY", "Updated") :: [("LOCATION", "Remote")] ++
                                  ("summary", "Other value") :: []) -> kv.1 <> "")
    by (intros kv [<- | [<- | [<- | []]]]; discriminate).
  assert (Hk : "SUMMARY" <> "summary") by discriminate.
  assert (Hl : toLowerCase "SUMMARY" = toLowerCase "summary") by reflexivity.
  assert (Hne : forall kv, In kv (@nil (string * string)) -> toLowerCase kv.1 <> toLowerCase "summary")
    by (intros kv []).
  assert (Hs : updateFields_result demo_engine ∅ (InStr event_text)
    ([] ++ ("SUMMARY", "Updated") :: [("LOCATION", "Remote")] ++ ("summary", "Other value") :: []) =
    inr (stringify demo_engine (alter_ref (Some 1%nat)
      (fun _ => (upsert_node demo_engine "icalendar"
         ([] ++ ("SUMMARY", "Updated") :: [("LOCATION", "Remote")] ++ ("summary", "Other value") :: [])
         event_main).1) event_cal)))
    by (vm_compute; reflexivity).
  refine (conj H0 (conj Hk (conj Hl (conj Hne (conj Hs _))))).
  exact (updateFields_case_insensitive_keys demo_engine ∅ _ [] _ [] _ _ _ _ _ H0 Hk Hl Hne Hs).
Defined.

(** * Further properties of the code *)

(** ** Helpers *)

Lemma upsert_node_lowercase_keys E S (F : FieldUpdates) c :
  upsert_node E S (map (fun '(key, value) => (toLowerCase key, value)) F) c = upsert_node E S F c.
Proof.
  revert c; induction F as [|[k v] F IH]; intros c; [done|].
  rewrite !upsert_node_cons. simpl. rewrite toLowerCase_idem.
  destruct (updatePropertyWithValue E S (toLowerCase k) v c) as [c1 [m|]]; [done|]. apply IH.
Qed.

Lemma upsert_all_lowercase_keys E S r (F : FieldUpdates) t :
  upsert_all E S r (map (fun '(key, value) => (toLowerCase key, value)) F) t = upsert_all E S r F t.
Proof.
  unfold upsert_all. destruct (ref_lookup r t); [by rewrite upsert_node_lowercase_keys|].
  by destruct F as [|[]].
Qed.

Lemma locate_target_upsert_all E S r (F : FieldUpdates) t :
  locate_target (upsert_all E S r F t).1 = locate_target t.
Proof.
  unfold upsert_all. destruct (ref_lookup r t) as [c|] eqn:Hc; [|by destruct F].
  pose proof (upsert_node_fst_name E S F c) as Hn.
  pose proof (upsert_node_fst_subs E S F c) as Hs.
  destruct (upsert_node E S F c) as [c' e]. simpl in *.
  by apply (locate_target_alter r t c c').
Qed.

(** The output of a successful call, parsed again, locates the same
    component, now holding the updated properties; a second call on it
    runs the loop on that component. *)
Lemma updateFields_reparse_run E h inp (F : FieldUpdates) s :
  (forall t, stringify E t <> "") ->
  (forall t, parse E (JStr (stringify E t)) = inr t) ->
  updateFields_result E h inp F = inr s ->
  exists t r c c', truthy (data_of h inp) = true /\ parse E (data_of h inp) = inr t /\
    locate_target t = inr r /\ ref_lookup r t = Some c /\
    upsert_node E (getDesignSet E (comp_name t)) F c = (c', None) /\
    s = stringify E (alter_ref r (fun _ => c') t) /\
    forall h' (G : FieldUpdates),
      updateFields_result E h' (InStr s) G =
      match upsert_node E (getDesignSet E (comp_name t)) G c' with
      | (c'', None) => inr (stringify E (alter_ref r (fun _ => c'') t))
      | (_, Some m) => inl (EngineError m)
      end.
Proof.
  intros Hne Hrt Hs.
  destruct (updateFields_success E h inp F s Hs) as (t & r & c & c' & Ht & Hp & Hl & Hc & Hrun & Hs').
  exists t, r, c, c'. split_and!; try done.
  intros h' G.
  pose proof (upsert_node_fst_name E (getDesignSet E (comp_name t)) F c) as Hn.
  pose proof (upsert_node_fst_subs E (getDesignSet E (comp_name t)) F c) as Hsub.
  rewrite Hrun in Hn, Hsub. simpl in Hn, Hsub.
  rewrite (updateFields_result_located E h' (InStr s) G (alter_ref r (fun _ => c') t) r c').
  - rewrite (alter_ref_name r t c c' Hc Hn).
    destruct (upsert_node E (getDesignSet E (comp_name t)) G c') as [c'' [m|]]; [done|].
    rewrite alter_ref_compose. reflexivity.
  - simpl. rewrite Hs'. specialize (Hne (alter_ref r (fun _ => c') t)).
    by destruct (String.eqb_spec (stringify E (alter_ref r (fun _ => c') t)) "").
  - simpl. rewrite Hs'. apply Hrt.
  - by rewrite (locate_target_alter r t c c' Hc Hn Hsub).
  - apply (ref_lookup_alter r t c (fun _ => c') Hc).
Qed.

Lemma rt_engine_retype_accepts S n v :
  decorate rt_engine (defaultSet rt_engine) (propertyDefaultType rt_engine (defaultSet rt_engine) n) v = None ->
  decorate rt_engine S (prop_type (set_parent rt_engine S (newProperty rt_engine n))) v = None.
Proof.
  change (demo_decorate "icalendar" (demo_propertyDefaultType "icalendar" n) v = None ->
          demo_decorate S (prop_type (set_parent rt_engine S (newProperty rt_engine n))) v = None).
  unfold set_parent, newProperty.
  cbn [prop_type prop_name prop_params prop_values propertyDefaultType rt_engine defaultSet].
  destruct (String.eqb_spec (demo_propertyDefaultType "icalendar" n) unknown_type) as [Hu|Hu];
    cbn [prop_type]; [|done].
  intros _. unfold demo_decorate.
  assert (Hs : demo_propertyDefaultType S n <> "date-time").
  { destruct (String.eqb S "vcard") eqn:HS.
    - unfold demo_propertyDefaultType. rewrite HS.
      destruct (existsb _ _); [discriminate|]. destruct (existsb _ _); discriminate.
    - replace (demo_propertyDefaultType S n) with (demo_propertyDefaultType "icalendar" n)
        by (unfold demo_propertyDefaultType; by rewrite HS).
      rewrite Hu. discriminate. }
  by destruct (String.eqb_spec (demo_propertyDefaultType S n) "date-time").
Qed.

(** Without the retyping hypothesis of [updateFields_idempotent] a second
    call can throw: with [strict_engine], a new [BDAY] on a vCard is
    checked as an unknown-typed property of the default set, accepted,
    and retyped [date-and-or-time] by [addProperty]; the second call
    finds it and runs the [date-and-or-time] decorator, which rejects it. *)
Lemma updateFields_second_call_retyped :
  updateFields_result strict_engine ∅ (InStr (rt_stringify contact_card)) [("BDAY", "1990")] =
    inr (rt_stringify (upsert_node strict_engine "vcard" [("BDAY", "1990")] contact_card).1) /\
  updateFields_result strict_engine ∅
    (InStr (rt_stringify (upsert_node strict_engine "vcard" [("BDAY", "1990")] contact_card).1))
    [("BDAY", "1990")] =
    inl (EngineError ("invalid date-and-or-time value: " +:+ dq +:+ "1990" +:+ dq)).
Proof. split; vm_compute; reflexivity. Qed.

(** ** Extras *)

(** X1: keys are lower-cased by the loop itself, so lower-casing them
    beforehand changes neither the result nor the heap. *)
Theorem updateFields_lowercased_keys E inp (F : FieldUpdates) h :
  updateFields E inp (map (fun '(key, value) => (toLowerCase key, value)) F) h = updateFields E inp F h.
Proof.
  rewrite !updateFields_run. destruct (negb _); [done|].
  destruct (parse E (data_of h inp)) as [m|t]; [done|].
  destruct (locate_target t) as [e|r]; [done|].
  by rewrite upsert_all_lowercase_keys.
Qed.

(** X2: a call that fails with an error other than an engine error
    (invalid input, parse failure, no updatable component) fails the same
    way, with the same heap, whatever the field map. *)
Theorem updateFields_failure_ignores_fields E inp (F F' : FieldUpdates) h h' e :
  (forall m, e <> EngineError m) ->
  updateFields E inp F h = (h', inl e) <-> updateFields E inp F' h = (h', inl e).
Proof.
  intros He. rewrite !updateFields_run.
  destruct (negb _); [done|].
  destruct (parse E (data_of h inp)) as [m|t]; [done|].
  destruct (locate_target t) as [e'|r] eqn:Hl; [done|].
  destruct (locate_target_lookup t r Hl) as [c Hc].
  rewrite !(upsert_all_found _ _ _ _ _ c Hc). simpl.
  split; intros H; exfalso; revert H;
    [destruct (upsert_node E (getDesignSet E (comp_name t)) F c) as [c' [m|]]
    |destruct (upsert_node E (getDesignSet E (comp_name t)) F' c) as [c' [m|]]];
    simpl; intros H; inversion H; subst; by apply (He m).
Qed.

Lemma updateFields_failure_ignores_fields_witness :
  (forall m, NoUpdatableComponent no_component_msg <> EngineError m) /\
  (updateFields demo_engine (InStr (demo_stringify tz_only_cal)) [("SUMMARY", "x")] ∅ =
     (<[fresh (dom (∅ : heap)) := CJCal tz_only_cal]> ∅, inl (NoUpdatableComponent no_component_msg)) <->
   updateFields demo_engine (InStr (demo_stringify tz_only_cal)) [] ∅ =
     (<[fresh (dom (∅ : heap)) := CJCal tz_only_cal]> ∅, inl (NoUpdatableComponent no_component_msg))).
Proof.
  assert (H : forall m, NoUpdatableComponent no_component_msg <> EngineError m) by (intros m; discriminate).
  split; [exact H|].
  exact (updateFields_failure_ignores_fields demo_engine _ _ _ _ _ _ H).
Defined.

(** X3: a successful call returns the serialisation of the tree in which
    the target component has been replaced by [upsert_result] over the
    lower-cased keys, an empty key standing for the name of the target's
    first property. *)
Theorem updateFields_target_closed_form E h inp (F : FieldUpdates) s :
  updateFields_result E h inp F = inr s ->
  exists t t' c, parse E (data_of h inp) = inr t /\ s = stringify E t' /\
    target_pair t t' c (upsert_result E (getDesignSet E (comp_name t)) (resolve_names c (lowered F)) c).
Proof.
  intros Hs.
  destruct (updateFields_success E h inp F s Hs) as (t & r & c & c' & _ & Hp & Hl & Hc & Hrun & ->).
  rewrite (upsert_node_ok E _ F c c' Hrun), upsert_named_closed_form.
  destruct (locate_target_update t r
    (fun _ => upsert_result E (getDesignSet E (comp_name t)) (resolve_names c (lowered F)) c) Hl)
    as (c0 & Hc0 & Hpair & _).
  rewrite Hc in Hc0. injection Hc0 as <-.
  eexists t, _, c. split_and!; [done|reflexivity|exact Hpair].
Qed.

Lemma updateFields_target_closed_form_witness :
  updateFields_result demo_engine ∅ (InStr event_text)
    [("SUMMARY", "First"); ("X-ZOOM-LINK", "https://zoom.example/1"); ("summary", "Second"); ("", "uid-2")] =
    inr (stringify demo_engine (alter_ref (Some 1%nat) (fun _ => (upsert_node demo_engine "icalendar"
      [("SUMMARY", "First"); ("X-ZOOM-LINK", "https://zoom.example/1"); ("summary", "Second"); ("", "uid-2")]
      event_main).1) event_cal)) /\
  exists t t' c, parse demo_engine (data_of ∅ (InStr event_text)) = inr t /\
    stringify demo_engine (alter_ref (Some 1%nat) (fun _ => (upsert_node demo_engine "icalendar"
      [("SUMMARY", "First"); ("X-ZOOM-LINK", "https://zoom.example/1"); ("summary", "Second"); ("", "uid-2")]
      event_main).1) event_cal) = stringify demo_engine t' /\
    target_pair t t' c (upsert_result demo_engine (getDesignSet demo_engine (comp_name t))
      (resolve_names c (lowered
        [("SUMMARY", "First"); ("X-ZOOM-LINK", "https://zoom.example/1"); ("summary", "Second"); ("", "uid-2")]))
      c).
Proof.
  assert (H : updateFields_result demo_engine ∅ (InStr event_text)
    [("SUMMARY", "First"); ("X-ZOOM-LINK", "https://zoom.example/1"); ("summary", "Second"); ("", "uid-2")] =
    inr (stringify demo_engine (alter_ref (Some 1%nat) (fun _ => (upsert_node demo_engine "icalendar"
      [("SUMMARY", "First"); ("X-ZOOM-LINK", "https://zoom.example/1"); ("summary", "Second"); ("", "uid-2")]
      event_main).1) event_cal))) by (vm_compute; reflexivity).
  split; [exact H|].
  exact (updateFields_target_closed_form demo_engine _ _ _ _ H).
Defined.

(** X4: the update loop never changes which component [updateFields]
    selects: the tree it leaves behind locates the same target. *)
Theorem updateFields_target_stable E S r (F : FieldUpdates) t :
  locate_target (upsert_all E S r F t).1 = locate_target t.
Proof. apply locate_target_upsert_all. Qed.



(** X6: for an engine whose output parses back to the tree it printed,
    and whose decorators accept, for a property created by the loop, every
    value the default set's type accepted, a successful call is
    idempotent: running it again on its own output returns that output. *)
Theorem updateFields_idempotent E h h' inp (F : FieldUpdates) s :
  (forall t, stringify E t <> "") ->
  (forall t, parse E (JStr (stringify E t)) = inr t) ->
  (forall S n v, decorate E (defaultSet E) (propertyDefaultType E (defaultSet E) n) v = None ->
     decorate E S (prop_type (set_parent E S (newProperty E n))) v = None) ->
  updateFields_result E h inp F = inr s ->
  updateFields_result E h' (InStr s) F = inr s.
Proof.
  intros Hne Hrt Hdec Hs.
  destruct (updateFields_reparse_run E h inp F s Hne Hrt Hs)
    as (t & r & c & c' & _ & _ & _ & _ & Hrun & -> & Hre).
  rewrite Hre.
  set (S := getDesignSet E (comp_name t)) in *.
  pose proof (upsert_node_accepts E S (Hdec S) F c c' Hrun) as Hacc.
  pose proof (upsert_node_ok E S F c c' Hrun) as Hc'.
  assert (Hres : resolve_names c' (lowered F) = resolve_names c (lowered F))
    by (rewrite Hc'; apply resolve_names_upsert_named).
  assert (Hfix : upsert_named E S (resolve_names c' (lowered F)) c' = c')
    by (rewrite Hres, Hc'; apply upsert_named_idem).
  rewrite (upsert_node_present E S F c'), Hfix; [reflexivity|].
  intros n v Hin. rewrite Hres in Hin. by apply Hacc.
Qed.

Lemma updateFields_idempotent_witness :
  (forall t, stringify rt_engine t <> "") /\
  (forall t, parse rt_engine (JStr (stringify rt_engine t)) = inr t) /\
  (forall S n v, decorate rt_engine (defaultSet rt_engine) (propertyDefaultType rt_engine (defaultSet rt_engine) n) v = None ->
     decorate rt_engine S (prop_type (set_parent rt_engine S (newProperty rt_engine n))) v = None) /\
  updateFields_result rt_engine ∅ (InStr (rt_stringify journal_todo_cal))
    [("STATUS", "COMPLETED"); ("status", "NEEDS-ACTION"); ("X-NEW", "1"); ("DUE", "2025-01-30T14:00:00")] =
    inr (rt_stringify (alter_ref (Some 1%nat) (fun _ => (upsert_node rt_engine "icalendar"
      [("STATUS", "COMPLETED"); ("status", "NEEDS-ACTION"); ("X-NEW", "1"); ("DUE", "2025-01-30T14:00:00")]
      (mkComp "vtodo" [text_prop "summary" "Task"; mkProp "priority" [] "integer" [JNum 5]] [])).1)
      journal_todo_cal)) /\
  updateFields_result rt_engine ∅
    (InStr (rt_stringify (alter_ref (Some 1%nat) (fun _ => (upsert_node rt_engine "icalendar"
      [("STATUS", "COMPLETED"); ("status", "NEEDS-ACTION"); ("X-NEW", "1"); ("DUE", "2025-01-30T14:00:00")]
      (mkComp "vtodo" [text_prop "summary" "Task"; mkProp "priority" [] "integer" [JNum 5]] [])).1)
      journal_todo_cal)))
    [("STATUS", "COMPLETED"); ("status", "NEEDS-ACTION"); ("X-NEW", "1"); ("DUE", "2025-01-30T14:00:00")] =
    inr (rt_stringify (alter_ref (Some 1%nat) (fun _ => (upsert_node rt_engine "icalendar"
      [("STATUS", "COMPLETED"); ("status", "NEEDS-ACTION"); ("X-NEW", "1"); ("DUE", "2025-01-30T14:00:00")]
      (mkComp "vtodo" [text_prop "summary" "Task"; mkProp "priority" [] "integer" [JNum 5]] [])).1)
      journal_todo_cal)).
Proof.
  assert (H4 : updateFields_result rt_engine ∅ (InStr (rt_stringify journal_todo_cal))
    [("STATUS", "COMPLETED"); ("status", "NEEDS-ACTION"); ("X-NEW", "1"); ("DUE", "2025-01-30T14:00:00")] =
    inr (rt_stringify (alter_ref (Some 1%nat) (fun _ => (upsert_node rt_engine "icalendar"
      [("STATUS", "COMPLETED"); ("status", "NEEDS-ACTION"); ("X-NEW", "1"); ("DUE", "2025-01-30T14:00:00")]
      (mkComp "vtodo" [text_prop "summary" "Task"; mkProp "priority" [] "integer" [JNum 5]] [])).1)
      journal_todo_cal))) by (vm_compute; reflexivity).
  refine (conj rt_engine_nonempty (conj rt_engine_roundtrip (conj rt_engine_retype_accepts (conj H4 _)))).
  exact (updateFields_idempotent rt_engine ∅ ∅ _ _ _
           rt_engine_nonempty rt_engine_roundtrip rt_engine_retype_accepts H4).
Defined.

(** X7: a run of the loop with no empty key that throws nothing keeps the
    names of the component's properties in order and appends, once each,
    the lower-cased keys the component had no property for. *)
Theorem upsert_node_property_names E S (F : FieldUpdates) c c' :
  (forall kv, In kv F -> kv.1 <> "") ->
  upsert_node E S F c = (c', None) ->
  exists nn, NoDup nn /\
    (forall n, In n nn <-> (exists kv, In kv F /\ toLowerCase kv.1 = n) /\ has_prop n (comp_props c) = false) /\
    map prop_name (comp_props c') = map prop_name (comp_props c) ++ nn.
Proof.
  intros Hne Hrun. rewrite (upsert_node_ok_nonempty E S F c c' Hne Hrun), upsert_named_closed_form.
  exists (new_names (lowered F) c). split_and!.
  - apply new_names_NoDup.
  - intros n. split.
    + intros Hin. split; [|by apply (new_names_absent (lowered F))].
      destruct (new_names_from_pairs _ _ _ Hin) as (v & Hv).
      apply in_lowered in Hv as (k & Hk & ->). by exists (k, v).
    + intros [([k v] & Hkv & <-) Habs].
      destruct (new_names_cover (lowered F) c (toLowerCase k, v) (in_lowered_2 F k v Hkv)) as [Hp|Hin];
        [cbn [fst] in Hp, Habs; congruence|done].
  - unfold upsert_result. simpl. rewrite map_app, mark_first_names, map_map. f_equal.
    erewrite map_ext; [apply map_id|]. intros n. apply new_prop_name.
Qed.

Lemma upsert_node_property_names_witness :
  (forall kv, In kv [("SUMMARY", "x"); ("X-A", "1"); ("x-a", "2"); ("LOCATION", "y")] -> kv.1 <> "") /\
  upsert_node demo_engine "icalendar" [("SUMMARY", "x"); ("X-A", "1"); ("x-a", "2"); ("LOCATION", "y")] event_main =
    ((upsert_node demo_engine "icalendar" [("SUMMARY", "x"); ("X-A", "1"); ("x-a", "2"); ("LOCATION", "y")]
       event_main).1, None) /\
  exists nn, NoDup nn /\
    (forall n, In n nn <-> (exists kv, In kv [("SUMMARY", "x"); ("X-A", "1"); ("x-a", "2"); ("LOCATION", "y")] /\
                            toLowerCase kv.1 = n) /\ has_prop n (comp_props event_main) = false) /\
    map prop_name (comp_props (upsert_node demo_engine "icalendar"
      [("SUMMARY", "x"); ("X-A", "1"); ("x-a", "2"); ("LOCATION", "y")] event_main).1) =
    map prop_name (comp_props event_main) ++ nn.
Proof.
  assert (H1 : forall kv, In kv [("SUMMARY", "x"); ("X-A", "1"); ("x-a", "2"); ("LOCATION", "y")] -> kv.1 <> "")
    by (intros kv [<- | [<- | [<- | [<- | []]]]]; discriminate).
  assert (H2 : upsert_node demo_engine "icalendar" [("SUMMARY", "x"); ("X-A", "1"); ("x-a", "2"); ("LOCATION", "y")]
      event_main =
    ((upsert_node demo_engine "icalendar" [("SUMMARY", "x"); ("X-A", "1"); ("x-a", "2"); ("LOCATION", "y")]
       event_main).1, None)) by (vm_compute; reflexivity).
  refine (conj H1 (conj H2 _)).
  exact (upsert_node_property_names demo_engine "icalendar" _ _ _ H1 H2).
Defined.

(** X8: when the keys are pairwise distinct after lower-casing, none is
    empty and every one names a property the component already has, a run
    that throws nothing gives the same component in any order of the
    entries. *)
Theorem upsert_node_reorder E S (F F' : FieldUpdates) c c1 :
  F ≡ₚ F' -> NoDup (map (fun kv => toLowerCase kv.1) F) ->
  (forall kv, In kv F -> kv.1 <> "" /\ has_prop (toLowerCase kv.1) (comp_props c) = true) ->
  upsert_node E S F c = (c1, None) -> upsert_node E S F' c = (c1, None).
Proof.
  intros Hp Hnd Hall Hrun.
  assert (Hall' : forall kv, In kv F' -> kv.1 <> "" /\ has_prop (toLowerCase kv.1) (comp_props c) = true).
  { intros kv Hkv. apply Hall. apply list_elem_of_In. rewrite Hp. by apply list_elem_of_In. }
  assert (HpL : lowered F ≡ₚ lowered F') by (unfold lowered; by apply Permutation_map).
  pose proof (upsert_node_ok_present E S F c c1 Hall Hrun) as Hacc.
  rewrite (upsert_node_ok_nonempty E S F c c1 (fun kv H => proj1 (Hall kv H)) Hrun).
  rewrite (upsert_node_present E S F' c).
  - rewrite (resolve_names_nonempty c F' (fun kv H => proj1 (Hall' kv H))).
    f_equal. rewrite !upsert_named_closed_form. unfold upsert_result.
    rewrite (new_names_all_present (lowered F) c), (new_names_all_present (lowered F') c).
    + f_equal. f_equal. apply mark_first_ext. intros p _ _. symmetry.
      apply last_value_perm; [done|]. by rewrite map_fst_lowered.
    + intros [n v] (k & Hk & ->)%in_lowered. exact (proj2 (Hall' (k, v) Hk)).
    + intros [n v] (k & Hk & ->)%in_lowered. exact (proj2 (Hall (k, v) Hk)).
  - rewrite (resolve_names_nonempty c F' (fun kv H => proj1 (Hall' kv H))).
    intros n v Hin. apply Hacc. apply list_elem_of_In. rewrite HpL. by apply list_elem_of_In.
Qed.

Lemma upsert_node_reorder_witness :
  [("SUMMARY", "New title"); ("LOCATION", "Room B")] ≡ₚ [("LOCATION", "Room B"); ("SUMMARY", "New title")] /\
  NoDup (map (fun kv => toLowerCase kv.1) [("SUMMARY", "New title"); ("LOCATION", "Room B")]) /\
  (forall kv, In kv [("SUMMARY", "New title"); ("LOCATION", "Room B")] ->
     kv.1 <> "" /\ has_prop (toLowerCase kv.1) (comp_props event_main) = true) /\
  upsert_node demo_engine "icalendar" [("SUMMARY", "New title"); ("LOCATION", "Room B")] event_main =
    ((upsert_node demo_engine "icalendar" [("SUMMARY", "New title"); ("LOCATION", "Room B")] event_main).1,
     None) /\
  upsert_node demo_engine "icalendar" [("LOCATION", "Room B"); ("SUMMARY", "New title")] event_main =
    ((upsert_node demo_engine "icalendar" [("SUMMARY", "New title"); ("LOCATION", "Room B")] event_main).1,
     None).
Proof.
  assert (H1 : [("SUMMARY", "New title"); ("LOCATION", "Room B")] ≡ₚ
               [("LOCATION", "Room B"); ("SUMMARY", "New title")]) by apply Permutation_swap.
  assert (H2 : NoDup (map (fun kv => toLowerCase kv.1) [("SUMMARY", "New title"); ("LOCATION", "Room B")]))
    by (vm_compute; repeat constructor; set_solver).
  assert (H3 : forall kv, In kv [("SUMMARY", "New title"); ("LOCATION", "Room B")] ->
     kv.1 <> "" /\ has_prop (toLowerCase kv.1) (comp_props event_main) = true)
    by (intros kv [<- | [<- | []]]; split; [discriminate|reflexivity|discriminate|reflexivity]).
  assert (H4 : upsert_node demo_engine "icalendar" [("SUMMARY", "New title"); ("LOCATION", "Room B")] event_main =
    ((upsert_node demo_engine "icalendar" [("SUMMARY", "New title"); ("LOCATION", "Room B")] event_main).1,
     None)) by (vm_compute; reflexivity).
  refine (conj H1 (conj H2 (conj H3 (conj H4 _)))).
  exact (upsert_node_reorder demo_engine "icalendar" _ _ _ _ H1 H2 H3 H4).
Defined.

(** X9: an entry with the empty key sets the value of the target's first
    property, whatever its name, and runs that property's decorator. *)
Theorem updateFields_empty_key E h inp t r c p ps v :
  truthy (data_of h inp) = true -> parse E (data_of h inp) = inr t ->
  locate_target t = inr r -> ref_lookup r t = Some c -> comp_props c = p :: ps ->
  updateFields_result E h inp [("", v)] =
  match decorate E (getDesignSet E (comp_name t)) (prop_type p) v with
  | None => inr (stringify E (alter_ref r (fun _ => mkComp (comp_name c) (assign v p :: ps) (comp_subs c)) t))
  | Some m => inl (EngineError m)
  end.
Proof.
  intros Ht Hp Hl Hc Hps.
  rewrite (updateFields_result_located E h inp _ t r c Ht Hp Hl Hc).
  cbn [upsert_node toLowerCase]. unfold updatePropertyWithValue, getFirstProperty.
  cbn [String.eqb]. rewrite Hps. cbn [lookup list_lookup].
  unfold setValue. by destruct (decorate E (getDesignSet E (comp_name t)) (prop_type p) v).
Qed.

Lemma updateFields_empty_key_witness :
  truthy (data_of ∅ (InStr event_text)) = true /\
  parse demo_engine (data_of ∅ (InStr event_text)) = inr event_cal /\
  locate_target event_cal = inr (Some 1%nat) /\
  ref_lookup (Some 1%nat) event_cal = Some event_main /\
  comp_props event_main = text_prop "uid" "test-event-12345@example.com" ::
    [text_prop "summary" "Original"; text_prop "location" "Conference Room A"] /\
  updateFields_result demo_engine ∅ (InStr event_text) [("", "uid-2")] =
  match decorate demo_engine (getDesignSet demo_engine (comp_name event_cal))
          (prop_type (text_prop "uid" "test-event-12345@example.com")) "uid-2" with
  | None => inr (stringify demo_engine (alter_ref (Some 1%nat) (fun _ => mkComp (comp_name event_main)
      (assign "uid-2" (text_prop "uid" "test-event-12345@example.com") ::
        [text_prop "summary" "Original"; text_prop "location" "Conference Room A"])
      (comp_subs event_main)) event_cal))
  | Some m => inl (EngineError m)
  end.
Proof.
  assert (H1 : truthy (data_of ∅ (InStr event_text)) = true) by (vm_compute; reflexivity).
  assert (H2 : parse demo_engine (data_of ∅ (InStr event_text)) = inr event_cal) by (vm_compute; reflexivity).
  assert (H3 : locate_target event_cal = inr (Some 1%nat)) by (vm_compute; reflexivity).
  assert (H4 : ref_lookup (Some 1%nat) event_cal = Some event_main) by reflexivity.
  assert (H5 : comp_props event_main = text_prop "uid" "test-event-12345@example.com" ::
    [text_prop "summary" "Original"; text_prop "location" "Conference Room A"]) by reflexivity.
  refine (conj H1 (conj H2 (conj H3 (conj H4 (conj H5 _))))).
  exact (updateFields_empty_key demo_engine ∅ _ _ _ _ _ _ _ H1 H2 H3 H4 H5).
Defined.

(** X10: an engine error comes from a decorator run by the loop on the
    value of one of the entries, in the design set of the parsed root or
    in the default set. *)
Theorem updateFields_engine_error_source E h inp (F : FieldUpdates) m :
  updateFields_result E h inp F = inl (EngineError m) ->
  exists t k v S ty, parse E (data_of h inp) = inr t /\ In (k, v) F /\
    (S = getDesignSet E (comp_name t) \/ S = defaultSet E) /\ decorate E S ty v = Some m.
Proof.
  intros H. destruct (updateFields_error E h inp F m H) as (t & r & c & c' & _ & Hp & _ & _ & Hu).
  destruct (upsert_node_error E _ F c c' m Hu) as (k & v & S & ty & Hin & HS & Hd).
  by exists t, k, v, S, ty.
Qed.

Lemma updateFields_engine_error_source_witness :
  updateFields_result demo_engine ∅ (InStr event_text) [("SUMMARY", "x"); ("DTSTART", "20250130T140000Z")] =
    inl (EngineError ("invalid date-time value: " +:+ dq +:+ "20250130T140000Z" +:+ dq)) /\
  exists t k v S ty, parse demo_engine (data_of ∅ (InStr event_text)) = inr t /\
    In (k, v) [("SUMMARY", "x"); ("DTSTART", "20250130T140000Z")] /\
    (S = getDesignSet demo_engine (comp_name t) \/ S = defaultSet demo_engine) /\
    decorate demo_engine S ty v = Some ("invalid date-time value: " +:+ dq +:+ "20250130T140000Z" +:+ dq).
Proof.
  assert (H : updateFields_result demo_engine ∅ (InStr event_text) [("SUMMARY", "x"); ("DTSTART", "20250130T140000Z")] =
    inl (EngineError ("invalid date-time value: " +:+ dq +:+ "20250130T140000Z" +:+ dq)))
    by (vm_compute; reflexivity).
  split; [exact H|].
  exact (updateFields_engine_error_source demo_engine _ _ _ _ H).
Defined.
